(** * helpers.py: trigram blocking, n-gram extraction, padding, JSON loading

    A shallow embedding of [src/helpers.py] and the properties its
    specification states about it.

    Data model.
    - A Python [str] is a sequence of Unicode code points: [list N].
    - A token sequence (the [list] returned by [str.split()]) is a
      [list str]; an n-gram (a [tuple] of tokens) is a [list str] too.
    - A Python [set] of tuples is a [gset (list str)].
    - A Python [int] is a [Z]. *)

From Stdlib Require Import ZArith NArith Strings.String Strings.Ascii Lia.
From Stdlib Require DecimalString DecimalZ.
From stdpp Require Import base decidable option numbers list sets gmap strings.

Local Open Scope Z_scope.

(** ** Python strings *)

Module PyStr.

Definition char : Type := N.
Definition str : Type := list char.

(** The code point of a character of a Rocq string literal. *)
Definition of_string (s : string) : str :=
  N_of_ascii <$> list_ascii_of_string s.

(** [str.split()] with no separator splits on runs of whitespace; the
    whitespace characters are those of CPython's [_PyUnicode_IsWhitespace]
    (below 128: its [_Py_ascii_whitespace] table). *)
Definition isspace (ch : char) : bool :=
  ((9 <=? ch) && (ch <=? 13))%N           (* \t \n \v \f \r *)
  || ((28 <=? ch) && (ch <=? 32))%N       (* FS GS RS US and the space *)
  || (ch =? 133)%N || (ch =? 160)%N       (* NEL, no-break space *)
  || (ch =? 5760)%N                       (* U+1680 *)
  || ((8192 <=? ch) && (ch <=? 8202))%N   (* U+2000 .. U+200A *)
  || (ch =? 8232)%N || (ch =? 8233)%N     (* U+2028, U+2029 *)
  || (ch =? 8239)%N || (ch =? 8287)%N     (* U+202F, U+205F *)
  || (ch =? 12288)%N.                     (* U+3000 *)

(** The scanner of [str.split()]: [cur] holds the characters of the token
    being read (empty between tokens).  A whitespace character closes the
    current token, if there is one; the end of the string does the same. *)
Fixpoint split_from (cur : str) (s : str) : list str :=
  match s with
  | [] => match cur with [] => [] | _ => [cur] end
  | ch :: s' =>
      if isspace ch then
        match cur with
        | [] => split_from [] s'
        | _ => cur :: split_from [] s'
        end
      else split_from (cur ++ [ch]) s'
  end.

Definition split (s : str) : list str := split_from [] s.

End PyStr.

Export PyStr.

(** ** Python sequences *)

(** [len(l)] *)
Abbreviation len l := (Z.of_nat (length l)).

(** [range(k)] *)
Definition range (k : Z) : list Z := seqZ 0 k.

(** The bound of a slice, clipped as [PySlice_AdjustIndices] does for a
    step of 1: a negative index counts from the end. *)
Definition clip (len i : Z) : Z :=
  if i <? 0 then Z.max 0 (i + len) else Z.min i len.

(** [text[i:j]] *)
Definition slice {A} (text : list A) (i j : Z) : list A :=
  let lo := clip (len text) i in
  let hi := clip (len text) j in
  take (Z.to_nat (hi - lo)) (drop (Z.to_nat lo) text).

(** ** N-grams *)

Abbreviation ngram := (list str).

(** [_get_ngrams(n, text)]: the loop adds [tuple(text[i : i + n])] to
    [ngram_set] for [i] in [range(max_index_ngram_start + 1)]. *)
Definition _get_ngrams (n : Z) (text : list str) : gset ngram :=
  let ngram_set : gset ngram := ∅ in
  let text_length := len text in
  let max_index_ngram_start := text_length - n in
  foldl (λ ngram_set i, ngram_set ∪ {[ slice text i (i + n) ]})
        ngram_set (range (max_index_ngram_start + 1)).

(** The result of a function that can raise. *)
Inductive exn :=
  | AssertionError | ValueError | UnboundLocalError
  | OSError | UnicodeDecodeError.

Inductive result (A : Type) : Type :=
  | Return (a : A)
  | Raise (e : exn).
Arguments Return {A} a.
Arguments Raise {A} e.

(** [sum(sentences, [])]: the accumulator starts at [[]] and each sentence
    is added on its right. *)
Definition sum_lists {A} (sentences : list (list A)) : list A :=
  foldl (λ acc s, acc ++ s) [] sentences.

(** [_get_word_ngrams(n, sentences)] *)
Definition _get_word_ngrams (n : Z) (sentences : list (list str))
  : result (gset ngram) :=
  if negb (bool_decide (0 < len sentences)) then Raise AssertionError
  else if negb (bool_decide (0 < n)) then Raise AssertionError
  else
    let words := sum_lists sentences in
    Return (_get_ngrams n words).

(** ** Trigram blocking *)

(** The loop of [block_trigrams] over the accepted spans: it returns [True]
    at the first span whose trigram set meets [tri_c], and [False] when the
    list is used up. *)
Fixpoint block_trigrams_loop (tri_c : gset ngram) (p : list str) : bool :=
  match p with
  | [] => false
  | s :: p' =>
      let tri_s := _get_ngrams 3 (split s) in
      if bool_decide (0 < Z.of_nat (size (tri_c ∩ tri_s))) then true
      else block_trigrams_loop tri_c p'
  end.

(** [block_trigrams(c, p)] *)
Definition block_trigrams (c : str) (p : list str) : bool :=
  let tri_c := _get_ngrams 3 (split c) in
  block_trigrams_loop tri_c p.

(** ** Padding *)

#[export] Instance result_ret : MRet result := λ A a, Return a.
#[export] Instance result_bind : MBind result := λ A B k r,
  match r with Return a => k a | Raise e => Raise e end.

(** [x * k] on a list: [k] copies of [x] joined, and the empty list when
    [k] is zero or negative. *)
Definition list_mul {A} (x : list A) (k : Z) : list A :=
  mjoin (replicate (Z.to_nat k) x).

(** [max(iterable)] over integers: [ValueError] on an empty iterable;
    otherwise the first item is kept until a greater one is met. *)
Definition py_max (items : list Z) : result Z :=
  match items with
  | [] => Raise ValueError
  | x :: items' => Return (foldl (λ m y, if m <? y then y else m) x items')
  end.

(** [not width] for [width] an [int] or [None]. *)
Definition not_width (width : option Z) : bool :=
  match width with
  | None => true
  | Some w => w =? 0
  end.

(** [pad(data, pad_id, width=None, pad_on_left=False)] *)
Definition pad {A} (data : list (list A)) (pad_id : A)
    (width : option Z) (pad_on_left : bool) : result (list (list A)) :=
  width ← (if not_width width then py_max ((λ d, len d) <$> data)
           else Return (default 0 width));
  if pad_on_left then
    Return ((λ d, list_mul [pad_id] (width - len d) ++ d) <$> data)
  else
    Return ((λ d, d ++ list_mul [pad_id] (width - len d)) <$> data).

(** One element [d] of [data] after [pad] for a width [w]: [w - len d]
    copies of [pad_id] on the chosen side, none when [d] is long enough. *)
Definition padded {A} (pad_id : A) (pad_on_left : bool) (w : Z) (d : list A) : list A :=
  if pad_on_left then replicate (Z.to_nat (w - len d)) pad_id ++ d
  else d ++ replicate (Z.to_nat (w - len d)) pad_id.

(** ** Loading JSON documents *)

(** [p.rfind(ch)]: the highest index of [ch] in [p], or [-1]. *)
Fixpoint rfind_from (i : Z) (ch : char) (p : str) (found : Z) : Z :=
  match p with
  | [] => found
  | x :: p' => rfind_from (i + 1) ch p' (if (x =? ch)%N then i else found)
  end.

Definition rfind (ch : char) (p : str) : Z := rfind_from 0 ch p (-1).

Definition sep : char := 47%N.     (* "/" *)
Definition extsep : char := 46%N.  (* "." *)

(** [os.path.splitext(p)] on POSIX ([genericpath._splitext] with no
    alternative separator): the extension starts at the last dot of the last
    path component, unless only dots precede it there. *)
Definition splitext (p : str) : str * str :=
  let sepIndex := rfind sep p in
  let dotIndex := rfind extsep p in
  if (sepIndex <? dotIndex)
     && existsb (λ filenameIndex,
                   negb (bool_decide (slice p filenameIndex (filenameIndex + 1) = [extsep])))
                (seqZ (sepIndex + 1) (dotIndex - (sepIndex + 1)))
  then (slice p 0 dotIndex, slice p dotIndex (len p))
  else (p, []).

Section load_json.

(** What the file system and the [json] and [gzip] modules do is left open:
    [value] is what [json.load] returns, [bytes] what a gzip stream holds. *)
Variables (value bytes : Type).
Variable read_json_file : str → result value.   (* open(f, "r"); json.load *)
Variable gzip_read : str → result bytes.        (* gzip.open(f, "r"); read *)
Variable decode_utf8 : bytes → result str.      (* bytes.decode("utf-8") *)
Variable json_loads : str → result value.       (* json.loads *)

(** The local variable [documents] is unbound until a branch assigns it;
    reading an unbound local raises [UnboundLocalError]. *)
Definition read_local {A} (documents : option A) : result A :=
  match documents with
  | Some v => Return v
  | None => Raise UnboundLocalError
  end.

Definition error_message (file_extension : str) : str :=
  of_string "File extension " ++ file_extension
    ++ of_string " not recognized. Please use either '.json' or '.gz'.".

(** [load_json(json_file)]: the messages given to [logger.error], and the
    pair returned or the exception raised.  Each branch of the [if] leaves
    [documents] bound or not; the [return] after it reads the variable. *)
Definition load_json (json_file : str) : list str * result (value * str) :=
  let '(file_path, file_extension) := splitext json_file in
  let '(logged, file_path, branch) :=
    if bool_decide (file_extension = of_string ".json") then
      ([], file_path,
       documents ← read_json_file json_file;
       Return (Some documents))
    else if bool_decide (file_extension = of_string ".gz") then
      ([], (splitext file_path).1,
       json_bytes ← gzip_read json_file;
       json_str ← decode_utf8 json_bytes;
       documents ← json_loads json_str;
       Return (Some documents))
    else
      ([error_message file_extension], file_path, Return None)
  in
  (logged,
   documents ← branch;
   documents ← read_local documents;
   Return (documents, file_path)).

End load_json.

(** ** The same code over a store of objects

    [block_trigrams] and [_get_ngrams] build and update sets and lists, which
    in Python are objects reached through references.  Here the code runs on
    an explicit store: the argument [p] and every list and set the code
    creates is an object at a location, [ngram_set.add] writes to the store,
    and the [for] loop over [p] reads the list object again at each step, as
    a list iterator does.  Strings and tuples are immutable and stay values. *)

Module Imperative.

Definition loc : Type := positive.

Inductive obj :=
  | ListObj (items : list str)
  | SetObj (elems : gset ngram).

Abbreviation store := (gmap loc obj).

(** A computation reads and writes the store; [None] is a run that went
    wrong: a reference of the wrong type, or no fuel left. *)
Definition M (A : Type) : Type := store → option (A * store).

#[global] Instance M_ret : MRet M := λ A a h, Some (a, h).
#[global] Instance M_bind : MBind M := λ A B k m h,
  match m h with
  | Some (a, h') => k a h'
  | None => None
  end.

Definition wrong {A} : M A := λ _, None.

(** A new object, at a location not in use. *)
Definition new (o : obj) : M loc := λ h,
  let l := fresh (dom h) in Some (l, <[l := o]> h).

Definition get_list (l : loc) : M (list str) := λ h,
  match h !! l with
  | Some (ListObj items) => Some (items, h)
  | _ => None
  end.

Definition get_set (l : loc) : M (gset ngram) := λ h,
  match h !! l with
  | Some (SetObj elems) => Some (elems, h)
  | _ => None
  end.

(** [s.add(t)] updates the set object in place. *)
Definition set_add (l : loc) (t : ngram) : M unit := λ h,
  match h !! l with
  | Some (SetObj elems) => Some ((), <[l := SetObj (elems ∪ {[ t ]})]> h)
  | _ => None
  end.

(** [a.intersection(b)] makes a new set. *)
Definition intersection (a b : loc) : M loc :=
  x ← get_set a; y ← get_set b; new (SetObj (x ∩ y)).

(** [len(s)] of a set *)
Definition set_len (l : loc) : M Z :=
  x ← get_set l; mret (Z.of_nat (size x)).

(** [s.split()] makes a new list. *)
Definition str_split (s : str) : M loc := new (ListObj (split s)).

(** [for i in range(k): body] *)
Fixpoint for_in (items : list Z) (body : Z → M unit) : M unit :=
  match items with
  | [] => mret ()
  | i :: items' => body i;; for_in items' body
  end.

(** [_get_ngrams(n, text)] *)
Definition _get_ngrams (n : Z) (text : loc) : M loc :=
  ngram_set ← new (SetObj ∅);
  text_length ← (items ← get_list text; mret (len items));
  let max_index_ngram_start := text_length - n in
  for_in (range (max_index_ngram_start + 1)) (λ i,
    items ← get_list text;
    set_add ngram_set (slice items i (i + n)));;
  mret ngram_set.

(** The [for s in p] loop of [block_trigrams], from position [idx] of the
    list iterator on. *)
Fixpoint block_trigrams_loop (fuel : nat) (tri_c p : loc) (idx : nat) : M bool :=
  match fuel with
  | O => wrong
  | S fuel =>
      items ← get_list p;
      match items !! idx with
      | None => mret false
      | Some s =>
          tri_s ← (text ← str_split s; _get_ngrams 3 text);
          common ← intersection tri_c tri_s;
          size ← set_len common;
          if bool_decide (0 < size) then mret true
          else block_trigrams_loop fuel tri_c p (S idx)
      end
  end.

(** [block_trigrams(c, p)] *)
Definition block_trigrams (fuel : nat) (c : str) (p : loc) : M bool :=
  tri_c ← (text ← str_split c; _get_ngrams 3 text);
  block_trigrams_loop fuel tri_c p 0.

End Imperative.

(** ** What the specification calls the n-gram set *)

(** [t] is a length-[n] contiguous run of tokens of [ws]. *)
Definition contiguous_run (n : nat) (t : ngram) (ws : list str) : Prop :=
  length t = n ∧ ∃ pre post, ws = pre ++ t ++ post.

Abbreviation trigram_of := (contiguous_run 3).

(** ** Exceptions and names of the rest of the module *)

(** The exceptions of the code below: those above, and the ones raised by a
    name that is not bound, an object without the operation asked of it, and
    a zero divisor. *)
Inductive exception :=
  | Builtin (e : exn)
  | NameError (name : string)
  | TypeError
  | AttributeError
  | ZeroDivisionError.

Inductive outcome (A : Type) : Type :=
  | Returns (a : A)
  | Raises (e : exception).
Arguments Returns {A} a.
Arguments Raises {A} e.

#[export] Instance outcome_ret : MRet outcome := λ A a, Returns a.
#[export] Instance outcome_bind : MBind outcome := λ A B k r,
  match r with Returns a => k a | Raises e => Raises e end.

Definition lift {A} (r : result A) : outcome A :=
  match r with
  | Return a => Returns a
  | Raise e => Raises (Builtin e)
  end.

(** What the module's global names are bound to once it is loaded: the
    imported modules, the logger, the class and the functions.  ([F] and
    [tensor] are not among them, and they are no builtins either.) *)
Inductive global_object :=
  | ModuleObject (name : string)
  | LoggerObject
  | ClassObject (name : string)
  | FunctionObject (name : string).

Definition module_globals : gmap string global_object :=
  list_to_map
    [("os", ModuleObject "os"); ("json", ModuleObject "json");
     ("gzip", ModuleObject "gzip"); ("logging", ModuleObject "logging");
     ("pl", ModuleObject "pytorch_lightning"); ("logger", LoggerObject);
     ("load_json", FunctionObject "load_json");
     ("StepCheckpointCallback", ClassObject "StepCheckpointCallback");
     ("lr_lambda_func", FunctionObject "lr_lambda_func");
     ("block_trigrams", FunctionObject "block_trigrams");
     ("_get_ngrams", FunctionObject "_get_ngrams");
     ("_get_word_ngrams", FunctionObject "_get_word_ngrams");
     ("pad", FunctionObject "pad"); ("pad_tensors", FunctionObject "pad_tensors")]%string.

(** Reading a name that is not a local of the function. *)
Definition load_global (name : string) : outcome global_object :=
  match module_globals !! name with
  | Some o => Returns o
  | None => Raises (NameError name)
  end.

(** [len(o)]: modules, loggers, classes and functions have no length. *)
Definition len_object (o : global_object) : outcome Z := Raises TypeError.

(** [o.pad]: none of these objects has such an attribute. *)
Definition getattr_pad {tensor : Type} (o : global_object)
  : outcome (tensor → Z * Z → Z → tensor) := Raises AttributeError.

(** ** Padding tensors *)

(** [[f(x) for x in items]] for an [f] that can raise. *)
Fixpoint comprehension {A B} (f : A → outcome B) (items : list A) : outcome (list B) :=
  match items with
  | [] => Returns []
  | x :: items' => y ← f x; ys ← comprehension f items'; Returns (y :: ys)
  end.

(** [pad_tensors(tensors, pad_id=0, width=None, pad_on_left=False)].  The
    name [tensor] is bound inside the comprehension of the last statement
    only, so where [pad_params] is computed it is read as a global. *)
Definition pad_tensors {tensor : Type} (tensor_len : tensor → Z)
    (tensors : list tensor) (pad_id : Z) (width : option Z) (pad_on_left : bool)
  : outcome (list tensor) :=
  width ← (if not_width width then lift (py_max (tensor_len <$> tensors))
           else Returns (default 0 width));
  pad_params ← (if pad_on_left then
                  tensor ← load_global "tensor"; n ← len_object tensor;
                  Returns (width - n, 0)
                else
                  tensor ← load_global "tensor"; n ← len_object tensor;
                  Returns (0, width - n));
  comprehension (λ tensor,
      F ← load_global "F"; F_pad ← getattr_pad F;
      Returns (F_pad tensor pad_params pad_id))
    tensors.

(** ** The checkpoint callback *)

(** [str(n)] for an integer: its decimal digits, with "-" in front when
    negative. *)
Definition str_of_int (n : Z) : str :=
  of_string (DecimalString.NilZero.string_of_int (Z.to_int n)).

(** [os.path.join(a, b)] on POSIX *)
Definition path_join (a b : str) : str :=
  if bool_decide (head b = Some sep) then b
  else if bool_decide (a = []) || bool_decide (last a = Some sep) then a ++ b
  else a ++ [sep] ++ b.

(** The attributes [__init__] sets. *)
Record StepCheckpointCallback := {
  step_interval : Z;
  save_name : str;
  save_path : str;
  num_saves_to_keep : Z;
}.

(** [StepCheckpointCallback()] with the default arguments *)
Definition default_callback : StepCheckpointCallback :=
  {| step_interval := 1000; save_name := of_string "model";
     save_path := of_string "."; num_saves_to_keep := 5 |}.

(** The name of the checkpoint of a step: [save_name + "." + str(step) +
    ".ckpt"]. *)
Definition checkpoint_name (self : StepCheckpointCallback) (step : Z) : str :=
  save_name self ++ of_string "." ++ str_of_int step ++ of_string ".ckpt".

Section callback.

(** What is outside the code is left open: the state of the world (trainer
    and file system) and what [trainer.save_checkpoint], [os.path.isfile] and
    [os.remove] do to it. *)
Context {world : Type}.
Variable save_checkpoint : str → world → world.
Variable isfile : str → world → bool.
Variable remove : str → world → world.

(** [on_batch_end(self, trainer, pl_module)], with [trainer.global_step]
    given as [global_step].  [x % 0] raises [ZeroDivisionError]; otherwise
    Python's [%] on integers is the floored remainder, as [Z.modulo]. *)
Definition on_batch_end (self : StepCheckpointCallback) (global_step : Z)
    (w : world) : outcome world :=
  remainder ← (if step_interval self =? 0 then Raises ZeroDivisionError
               else Returns (global_step mod step_interval self));
  if (remainder =? 0) && negb (global_step =? 0) then
    let final_save_location :=
      path_join (save_path self) (checkpoint_name self global_step) in
    let w := save_checkpoint final_save_location w in
    let offset := step_interval self * num_saves_to_keep self in
    let path_to_remove := checkpoint_name self (global_step - offset) in
    if isfile path_to_remove w then Returns (remove path_to_remove w)
    else Returns w
  else Returns w.

(** The callback called at the end of each batch of a training run, with
    the value of [trainer.global_step] at each call. *)
Fixpoint on_batches (self : StepCheckpointCallback) (steps : list Z)
    (w : world) : outcome world :=
  match steps with
  | [] => Returns w
  | global_step :: steps' =>
      w ← on_batch_end self global_step w; on_batches self steps' w
  end.

End callback.

(** One world: the calls made, in order, with [os.path.isfile] answering as
    [exists_file] says. *)
Inductive call :=
  | SaveCheckpoint (path : str)
  | Remove (path : str).

Definition traced_on_batch_end (exists_file : str → bool) :=
  on_batch_end (world := list call)
    (λ path w, w ++ [SaveCheckpoint path])
    (λ path _, exists_file path)
    (λ path w, w ++ [Remove path]).

(** Another world: the set of regular files, where [resolve] says which
    file a path names.  Saving a checkpoint creates the file, removing
    deletes it. *)
Section files.

Context {file : Type} `{Countable file}.
Variable resolve : str → file.

Definition files_on_batches :=
  on_batches (world := gset file)
    (λ path files, files ∪ {[ resolve path ]})
    (λ path files, bool_decide (resolve path ∈ files))
    (λ path files, files ∖ {[ resolve path ]}).

End files.

(** The checkpoints that should be there after [N] batches: those of the
    multiples of the interval among the last
    [step_interval * num_saves_to_keep] steps. *)
Definition recent_checkpoint {file : Type} (resolve : str → file)
    (self : StepCheckpointCallback) (N : Z) (f : file) : Prop :=
  ∃ step, (step_interval self | step) ∧ 0 < step ≤ N ∧
          N - step_interval self * num_saves_to_keep self < step ∧
          f = resolve (checkpoint_name self step).

(** ** Joining tokens *)

(** [sep.join(items)] *)
Fixpoint join (sep : str) (items : list str) : str :=
  match items with
  | [] => []
  | [t] => t
  | t :: items' => t ++ sep ++ join sep items'
  end.

(** A token as [str.split()] produces them: not empty, no whitespace in it. *)
Definition is_token (t : str) : Prop :=
  t ≠ [] ∧ Forall (λ ch, isspace ch = false) t.

(** * Properties *)

(** ** Slices and n-gram sets *)

Section ngrams.

Implicit Types (text : list str) (t : ngram) (n i : Z).

Lemma range_nonpos k : k ≤ 0 → range k = [].
Proof. intros Hk. unfold range, seqZ. by replace (Z.to_nat k) with 0%nat by lia. Qed.

Lemma elem_of_range i k : i ∈ range k ↔ 0 ≤ i < k.
Proof. unfold range. rewrite elem_of_seqZ. lia. Qed.

Lemma elem_of_foldl_add (f : Z → ngram) (l : list Z) (acc : gset ngram) t :
  t ∈ foldl (λ acc i, acc ∪ {[ f i ]}) acc l ↔ t ∈ acc ∨ ∃ i, i ∈ l ∧ t = f i.
Proof.
  revert acc. induction l as [|j l IH]; intros acc; simpl.
  - split; [by left | intros [?|(i & Hi & _)]; [done | by apply elem_of_nil in Hi]].
  - rewrite IH, elem_of_union, elem_of_singleton. split.
    + intros [[?| ->]|(i & Hi & ->)]; [by left | right; exists j | right; exists i];
        (split; [|done]); [left | by right].
    + intros [?|(i & Hi & ->)]; [by left; left|].
      apply elem_of_cons in Hi as [-> |Hi]; [left; by right | right; by exists i].
Qed.

Lemma elem_of_get_ngrams n text t :
  t ∈ _get_ngrams n text ↔
  ∃ i, 0 ≤ i ≤ Z.of_nat (length text) - n ∧ t = slice text i (i + n).
Proof.
  unfold _get_ngrams. rewrite elem_of_foldl_add. split.
  - intros [H|(i & Hi & ->)]; [by apply not_elem_of_empty in H|].
    apply elem_of_range in Hi. exists i. split; [lia | done].
  - intros (i & Hi & ->). right. exists i. split; [|done].
    apply elem_of_range. lia.
Qed.

(** Inside the text a slice is a window: drop [i] tokens, keep the next [n]. *)
Lemma slice_window {A} (l : list A) i n :
  0 ≤ i → 0 ≤ n → i + n ≤ Z.of_nat (length l) →
  slice l i (i + n) = take (Z.to_nat n) (drop (Z.to_nat i) l).
Proof.
  intros Hi Hn Hlen. unfold slice, clip.
  destruct (Z.ltb_spec i 0); [lia|]. destruct (Z.ltb_spec (i + n) 0); [lia|].
  do 2 f_equal; lia.
Qed.

Lemma get_ngrams_contiguous n text t :
  0 ≤ n →
  t ∈ _get_ngrams n text ↔ contiguous_run (Z.to_nat n) t text.
Proof.
  intros Hn. rewrite elem_of_get_ngrams. unfold contiguous_run. split.
  - intros (i & Hi & ->). rewrite slice_window by lia. split.
    + rewrite length_take, length_drop. lia.
    + exists (take (Z.to_nat i) text), (drop (Z.to_nat n) (drop (Z.to_nat i) text)).
      by rewrite !take_drop.
  - intros (Hlen & pre & post & ->). exists (Z.of_nat (length pre)).
    rewrite !length_app. split; [lia|].
    rewrite slice_window by (rewrite ?length_app; lia).
    rewrite Nat2Z.id, drop_app_length, <- Hlen. by rewrite take_app_length.
Qed.

Lemma get_ngrams_short n text :
  Z.of_nat (length text) < n → _get_ngrams n text = ∅.
Proof.
  intros Hlen. unfold _get_ngrams. by rewrite range_nonpos by lia.
Qed.

Lemma meets_iff (X Y : gset ngram) :
  bool_decide (0 < Z.of_nat (size (X ∩ Y))) = true ↔ ∃ t, t ∈ X ∧ t ∈ Y.
Proof.
  rewrite bool_decide_eq_true. split.
  - intros Hsz. destruct (size_pos_elem_of (X ∩ Y)) as [t Ht]; [lia|].
    apply elem_of_intersection in Ht. by exists t.
  - intros (t & HX & HY).
    assert (size (X ∩ Y) ≠ 0%nat); [|lia].
    apply size_non_empty_iff. intros Hemp.
    assert (t ∈ X ∩ Y) as Hin by (by apply elem_of_intersection).
    rewrite Hemp in Hin. by apply not_elem_of_empty in Hin.
Qed.

End ngrams.

(** ** The blocking decision *)

Section blocking.

Implicit Types (c s : str) (p q : list str).

Lemma block_trigrams_loop_true (tri_c : gset ngram) p :
  block_trigrams_loop tri_c p = true ↔
  ∃ s t, s ∈ p ∧ t ∈ tri_c ∧ t ∈ _get_ngrams 3 (split s).
Proof.
  induction p as [|s p IH]; simpl.
  - split; [done | intros (s & t & Hs & _); by apply elem_of_nil in Hs].
  - destruct (bool_decide _) eqn:Hm.
    + apply meets_iff in Hm as (t & ? & ?). split; [|done].
      intros _. exists s, t. split; [left | done].
    + rewrite IH. split.
      * intros (s' & t & ? & ? & ?). exists s', t. split; [by right | done].
      * intros (s' & t & Hs & Hc & Ht).
        apply elem_of_cons in Hs as [-> |Hs]; [|by exists s', t].
        assert (bool_decide (0 < Z.of_nat (size (tri_c ∩ _get_ngrams 3 (split s)))) = true)
          as Hm' by (apply meets_iff; by exists t).
        congruence.
Qed.

Lemma block_trigrams_true c p :
  block_trigrams c p = true ↔
  ∃ s t, s ∈ p ∧ trigram_of t (split c) ∧ trigram_of t (split s).
Proof.
  unfold block_trigrams. rewrite block_trigrams_loop_true.
  split; intros (s & t & Hs & Hc & Ht); exists s, t; (split; [done|]).
  - by split; apply (get_ngrams_contiguous 3).
  - by split; apply (get_ngrams_contiguous 3).
Qed.

Lemma block_trigrams_mem_iff c p q :
  (∀ s, s ∈ p ↔ s ∈ q) → block_trigrams c p = block_trigrams c q.
Proof.
  intros Hpq. apply eq_true_iff_eq. rewrite !block_trigrams_true.
  split; intros (s & t & Hs & H); exists s, t; (split; [by apply Hpq | done]).
Qed.

(** C1.  [block_trigrams c p] is true exactly when some accepted span of [p]
    has a trigram (three contiguous tokens of its whitespace tokenization) in
    common with the candidate [c]; for the candidate "the cat sat on the mat"
    and the accepted span "the cat sat near a tree" it is true. *)
Theorem block_trigrams_iff_shared_trigram :
  (∀ c p,
     block_trigrams c p = true ↔
     ∃ s, s ∈ p ∧ ∃ t, trigram_of t (split c) ∧ trigram_of t (split s)) ∧
  block_trigrams (of_string "the cat sat on the mat")
                 [of_string "the cat sat near a tree"] = true.
Proof.
  split; [|by vm_compute].
  intros c p. rewrite block_trigrams_true. split.
  - intros (s & t & ? & ? & ?). exists s. split; [done|]. by exists t.
  - intros (s & ? & t & ? & ?). by exists s, t.
Qed.

(** C2.  A candidate with fewer than three whitespace tokens (the empty
    string included) is never blocked, whatever the accepted spans. *)
Theorem block_trigrams_short_candidate c p :
  (length (split c) < 3)%nat →
  _get_ngrams 3 (split c) = ∅ ∧ block_trigrams c p = false.
Proof.
  intros Hlen. split; [apply get_ngrams_short; lia|].
  apply not_true_is_false. rewrite block_trigrams_true.
  intros (s & t & _ & (Ht & pre & post & Hc) & _).
  rewrite Hc, !length_app, Ht in Hlen. lia.
Qed.

Lemma block_trigrams_short_candidate_witness :
  _get_ngrams 3 (split (of_string "ab")) = ∅ ∧
  block_trigrams (of_string "ab") [of_string "ab cd ef"] = false.
Proof.
  apply (block_trigrams_short_candidate (of_string "ab") [of_string "ab cd ef"]).
  vm_compute. lia.
Defined.

(** C3.  With no accepted span, no candidate is blocked. *)
Theorem block_trigrams_no_spans c : block_trigrams c [] = false.
Proof. reflexivity. Qed.

(** C4.  A candidate of at least three tokens that is itself one of the
    accepted spans is blocked. *)
Theorem block_trigrams_repeated_span c p :
  (3 ≤ length (split c))%nat → c ∈ p → block_trigrams c p = true.
Proof.
  intros Hlen Hc. apply block_trigrams_true.
  assert (trigram_of (take 3 (split c)) (split c)) as Ht.
  { split; [rewrite length_take; lia|].
    exists [], (drop 3 (split c)). by rewrite take_drop. }
  by exists c, (take 3 (split c)).
Qed.

Lemma block_trigrams_repeated_span_witness :
  block_trigrams (of_string "a b c") [of_string "x"; of_string "a b c"] = true.
Proof.
  apply (block_trigrams_repeated_span (of_string "a b c")
           [of_string "x"; of_string "a b c"]).
  - vm_compute. lia.
  - right. left.
Defined.

(** C5.  Reordering the accepted spans does not change the result. *)
Theorem block_trigrams_permutation c p p' :
  p ≡ₚ p' → block_trigrams c p = block_trigrams c p'.
Proof.
  intros Hperm. apply block_trigrams_mem_iff. intros s. by rewrite Hperm.
Qed.

Lemma block_trigrams_permutation_witness :
  block_trigrams (of_string "a b c d") [of_string "x y z"; of_string "b c d"] =
  block_trigrams (of_string "a b c d") [of_string "b c d"; of_string "x y z"].
Proof.
  apply (block_trigrams_permutation (of_string "a b c d")
           [of_string "x y z"; of_string "b c d"]
           [of_string "b c d"; of_string "x y z"]).
  apply Permutation_swap.
Defined.

(** C9.  Blocking is monotone in the accepted spans: a blocked candidate
    stays blocked when further spans are added after or before the list. *)
Theorem block_trigrams_monotone c p q :
  block_trigrams c p = true →
  block_trigrams c (p ++ q) = true ∧ block_trigrams c (q ++ p) = true.
Proof.
  rewrite !block_trigrams_true. intros (s & t & Hs & H).
  split; exists s, t; (split; [|done]); apply elem_of_app; [by left | by right].
Qed.

Lemma block_trigrams_monotone_witness :
  block_trigrams (of_string "a b c") ([of_string "a b c"] ++ [of_string "x"]) = true ∧
  block_trigrams (of_string "a b c") ([of_string "x"] ++ [of_string "a b c"]) = true.
Proof.
  apply (block_trigrams_monotone (of_string "a b c") [of_string "a b c"] [of_string "x"]).
  by vm_compute.
Defined.

End blocking.

(** ** N-grams of several sentences *)

Lemma foldl_app_concat {A} (sentences : list (list A)) (acc : list A) :
  foldl (λ acc s, acc ++ s) acc sentences = acc ++ concat sentences.
Proof.
  revert acc. induction sentences as [|s sentences IH]; intros acc; simpl.
  - by rewrite app_nil_r.
  - by rewrite IH, app_assoc.
Qed.

Lemma sum_lists_concat {A} (sentences : list (list A)) :
  sum_lists sentences = concat sentences.
Proof. unfold sum_lists. by rewrite foldl_app_concat. Qed.

(** C8.  For [n > 0] and a non-empty list of sentences, [_get_word_ngrams]
    returns the n-grams of the single token sequence obtained by joining the
    sentences from left to right. *)
Theorem get_word_ngrams_concat n (sentences : list (list str)) :
  0 < n → sentences ≠ [] →
  _get_word_ngrams n sentences = Return (_get_ngrams n (concat sentences)).
Proof.
  intros Hn Hne. unfold _get_word_ngrams.
  rewrite !bool_decide_eq_true_2; [by rewrite sum_lists_concat | done |].
  destruct sentences; [done | simpl; lia].
Qed.

Lemma get_word_ngrams_concat_witness :
  _get_word_ngrams 2 [split (of_string "a b"); split (of_string "c")] =
  Return (_get_ngrams 2 (concat [split (of_string "a b"); split (of_string "c")])).
Proof.
  apply (get_word_ngrams_concat 2 [split (of_string "a b"); split (of_string "c")]).
  - lia.
  - discriminate.
Defined.

(** ** Padding *)

Section padding.

Context {A : Type}.
Implicit Types (data : list (list A)) (d : list A) (pad_id : A) (w : Z).

Lemma list_mul_singleton pad_id k :
  list_mul [pad_id] k = replicate (Z.to_nat k) pad_id.
Proof.
  unfold list_mul. induction (Z.to_nat k) as [|m IH]; simpl; [done | by rewrite IH].
Qed.

Lemma foldl_max_spec (items : list Z) (x : Z) :
  let m := foldl (λ m y, if m <? y then y else m) x items in
  (m = x ∨ m ∈ items) ∧ x ≤ m ∧ ∀ y, y ∈ items → y ≤ m.
Proof.
  revert x. induction items as [|y items IH]; intros x; simpl.
  - split; [by left|]. split; [lia|]. intros y Hy. by apply elem_of_nil in Hy.
  - specialize (IH (if x <? y then y else x)). simpl in IH.
    destruct IH as (Hin & Hle & Hall).
    destruct (Z.ltb_spec x y).
    + split; [right; destruct Hin as [-> |?]; [left | by right]|].
      split; [lia|]. intros z [-> |Hz]%elem_of_cons; [lia | by apply Hall].
    + split; [destruct Hin as [-> |?]; [by left | right; by right]|].
      split; [lia|]. intros z [-> |Hz]%elem_of_cons; [lia | by apply Hall].
Qed.

(** On a non-empty iterable [max] returns an item that no item exceeds. *)
Lemma py_max_spec (items : list Z) :
  items ≠ [] →
  ∃ m, py_max items = Return m ∧ m ∈ items ∧ ∀ y, y ∈ items → y ≤ m.
Proof.
  destruct items as [|x items]; [done|]. intros _. simpl.
  destruct (foldl_max_spec items x) as (Hin & Hle & Hall).
  eexists. split; [done|]. split.
  - destruct Hin as [-> |?]; [left | by right].
  - intros y [-> |Hy]%elem_of_cons; [done | by apply Hall].
Qed.

Lemma pad_returns data pad_id width pad_on_left :
  data ≠ [] →
  ∃ w, pad data pad_id width pad_on_left = Return (padded pad_id pad_on_left w <$> data) ∧
       (not_width width = false → width = Some w) ∧
       (not_width width = true →
          (∃ d, d ∈ data ∧ len d = w) ∧ ∀ d, d ∈ data → len d ≤ w).
Proof.
  intros Hne. unfold pad.
  destruct (not_width width) eqn:Hw.
  - destruct (py_max_spec ((λ d, len d) <$> data)) as (m & -> & Hin & Hmax).
    { by destruct data. }
    exists m. split; [|split; [done|]].
    + simpl. destruct pad_on_left; f_equal; apply list_fmap_ext;
        intros i d _; unfold padded; by rewrite list_mul_singleton.
    + intros _. split.
      * apply list_elem_of_fmap in Hin as (d & -> & Hd). by exists d.
      * intros d Hd. apply Hmax. apply list_elem_of_fmap. by exists d.
  - destruct width as [w|]; [|done]. exists w. split; [|split; [done | done]].
    simpl. destruct pad_on_left; f_equal; apply list_fmap_ext;
      intros i d _; unfold padded; by rewrite list_mul_singleton.
Qed.

(** C10.  [pad] never truncates.  On a non-empty [data] it returns a list
    [out] of the same length in which, for the width [w] in force, an element
    at least [w] long stands unchanged at its position and a shorter one
    stands there extended by [w - len d] copies of [pad_id] on the chosen
    side; when [width] is [None] or [0], [w] is the greatest element length
    and every element of [out] has exactly that length. *)
Theorem pad_never_truncates data pad_id width pad_on_left :
  data ≠ [] →
  ∃ w out,
    pad data pad_id width pad_on_left = Return out ∧
    length out = length data ∧
    (∀ w0, width = Some w0 → w0 ≠ 0 → w = w0) ∧
    (∀ (i : nat) d, data !! i = Some d →
       (w ≤ len d → out !! i = Some d) ∧
       (len d < w →
          out !! i = Some (if pad_on_left
                           then replicate (Z.to_nat (w - len d)) pad_id ++ d
                           else d ++ replicate (Z.to_nat (w - len d)) pad_id))) ∧
    (width = None ∨ width = Some 0 →
       (∃ d, d ∈ data ∧ len d = w) ∧ (∀ d, d ∈ data → len d ≤ w) ∧
       ∀ o, o ∈ out → len o = w).
Proof.
  intros Hne.
  destruct (pad_returns data pad_id width pad_on_left Hne) as (w & Hpad & Hsome & Hnone).
  exists w, (padded pad_id pad_on_left w <$> data).
  split; [done|]. split; [by rewrite length_fmap|]. split; [|split].
  - intros w0 -> Hw0. assert (Some w0 = Some w) as [= ->]; [|done].
    apply Hsome. simpl. by apply Z.eqb_neq.
  - intros i d Hd. rewrite list_lookup_fmap, Hd. simpl. split.
    + intros Hle. f_equal. unfold padded.
      replace (Z.to_nat (w - len d)) with 0%nat by lia.
      destruct pad_on_left; simpl; [done | by rewrite app_nil_r].
    + intros _. done.
  - intros Hw. assert (not_width width = true) as Hnw by (by destruct Hw as [-> | ->]).
    destruct (Hnone Hnw) as (Hex & Hmax). split; [done|]. split; [done|].
    intros o (d & -> & Hd)%list_elem_of_fmap. specialize (Hmax d Hd).
    unfold padded. destruct pad_on_left; rewrite length_app, length_replicate; lia.
Qed.

End padding.

Lemma pad_never_truncates_witness :
  ∃ w out,
    pad [[1; 2; 3]; [4]] 0 None false = Return out ∧
    length out = 2%nat ∧
    (∀ w0, @None Z = Some w0 → w0 ≠ 0 → w = w0) ∧
    (∀ (i : nat) d, [[1; 2; 3]; [4]] !! i = Some d →
       (w ≤ len d → out !! i = Some d) ∧
       (len d < w →
          out !! i = Some (if false
                           then replicate (Z.to_nat (w - len d)) 0 ++ d
                           else d ++ replicate (Z.to_nat (w - len d)) 0))) ∧
    (@None Z = None ∨ None = Some 0 →
       (∃ d, d ∈ [[1; 2; 3]; [4]] ∧ len d = w) ∧
       (∀ d, d ∈ [[1; 2; 3]; [4]] → len d ≤ w) ∧
       ∀ o, o ∈ out → len o = w).
Proof.
  apply (pad_never_truncates [[1; 2; 3]; [4]] 0 None false). discriminate.
Defined.

(** ** Loading JSON documents *)

Section load_json_facts.

Context {value bytes : Type}.
Variable read_json_file : str → result value.
Variable gzip_read : str → result bytes.
Variable decode_utf8 : bytes → result str.
Variable json_loads : str → result value.

Abbreviation run_load_json :=
  (load_json value bytes read_json_file gzip_read decode_utf8 json_loads).

(** In the last branch nothing binds [documents]: the message is logged and
    the [return] raises. *)
Lemma load_json_unrecognized json_file :
  (splitext json_file).2 ≠ of_string ".json" →
  (splitext json_file).2 ≠ of_string ".gz" →
  run_load_json json_file =
    ([error_message (splitext json_file).2], Raise UnboundLocalError).
Proof.
  intros Hjson Hgz. unfold load_json.
  destruct (splitext json_file) as [file_path file_extension]; simpl in *.
  by rewrite !bool_decide_eq_false_2.
Qed.

(** C7.  Called with "data.txt", whose last extension is neither ".json"
    nor ".gz", [load_json] logs the error message and then raises
    [UnboundLocalError] at its [return]: it returns no pair at all, so no
    [None] as the documents. *)
Theorem load_json_unrecognized_raises :
  run_load_json (of_string "data.txt") =
    ([of_string "File extension .txt not recognized. Please use either '.json' or '.gz'."],
     Raise UnboundLocalError) ∧
  ∀ documents file_path,
    (run_load_json (of_string "data.txt")).2 ≠ Return (documents, file_path).
Proof.
  assert (run_load_json (of_string "data.txt") =
            ([error_message (of_string ".txt")], Raise UnboundLocalError)) as Hrun.
  { by apply (load_json_unrecognized (of_string "data.txt")). }
  split; [by rewrite Hrun|]. intros documents file_path. by rewrite Hrun.
Qed.

End load_json_facts.

(** ** The code over the store *)

Section store.

Implicit Types (h : Imperative.store) (l text p tri_c : Imperative.loc).
Implicit Types (items : list str) (n : Z) (fuel idx : nat).

Lemma run_bind {A B} (m : Imperative.M A) (k : A → Imperative.M B) h a h' :
  m h = Some (a, h') → (m ≫= k) h = k a h'.
Proof. intros Hm. unfold mbind, Imperative.M_bind. by rewrite Hm. Qed.

Lemma run_new o h :
  ∃ l, Imperative.new o h = Some (l, <[l := o]> h) ∧ h !! l = None.
Proof.
  exists (fresh (dom h)). split; [done|].
  apply not_elem_of_dom, is_fresh.
Qed.

Lemma run_get_list l items h :
  h !! l = Some (Imperative.ListObj items) → Imperative.get_list l h = Some (items, h).
Proof. intros Hl. unfold Imperative.get_list. by rewrite Hl. Qed.

Lemma run_get_set l X h :
  h !! l = Some (Imperative.SetObj X) → Imperative.get_set l h = Some (X, h).
Proof. intros Hl. unfold Imperative.get_set. by rewrite Hl. Qed.

(** The loop of [_get_ngrams] writes to the set object it was given and to
    nothing else; what it leaves there is what the fold computes. *)
Lemma run_ngram_loop n text items l (steps : list Z) (acc : gset ngram) h :
  h !! text = Some (Imperative.ListObj items) →
  h !! l = Some (Imperative.SetObj acc) →
  Imperative.for_in steps (λ i, items ← Imperative.get_list text;
                     Imperative.set_add l (slice items i (i + n))) h =
  Some ((), <[l := Imperative.SetObj (foldl (λ acc i, acc ∪ {[ slice items i (i + n) ]})
                                 acc steps)]> h).
Proof.
  intros Htext. revert acc h Htext.
  induction steps as [|i steps IH]; intros acc h Htext Hl; simpl.
  - unfold mret, Imperative.M_ret. by rewrite insert_id.
  - assert (l ≠ text) as Hne by (intros ->; congruence).
    erewrite run_bind; last first.
    { erewrite run_bind by (by apply run_get_list).
      unfold Imperative.set_add. by rewrite Hl. }
    rewrite (IH (acc ∪ {[ slice items i (i + n) ]})).
    + by rewrite insert_insert_eq.
    + by rewrite lookup_insert_ne.
    + by rewrite lookup_insert_eq.
Qed.

Lemma run_get_ngrams n text items h :
  h !! text = Some (Imperative.ListObj items) →
  ∃ l, Imperative._get_ngrams n text h =
         Some (l, <[l := Imperative.SetObj (_get_ngrams n items)]> h) ∧
       h !! l = None.
Proof.
  intros Htext. destruct (run_new (Imperative.SetObj ∅) h) as (l & Hnew & Hfresh).
  exists l. split; [|done]. unfold Imperative._get_ngrams.
  assert (l ≠ text) as Hne by (intros ->; congruence).
  erewrite run_bind by done.
  erewrite run_bind; last first.
  { erewrite run_bind; [done|]. apply run_get_list. by rewrite lookup_insert_ne. }
  erewrite run_bind; last first.
  { apply run_ngram_loop with (acc := ∅).
    - by rewrite lookup_insert_ne.
    - by rewrite lookup_insert_eq. }
  by rewrite insert_insert_eq.
Qed.

(** [_get_ngrams(3, s.split())]: two Imperative.new objects, nothing else touched. *)
Lemma run_trigrams s h :
  ∃ l h', (text ← Imperative.str_split s; Imperative._get_ngrams 3 text) h = Some (l, h') ∧
          h ⊆ h' ∧ h' !! l = Some (Imperative.SetObj (_get_ngrams 3 (split s))).
Proof.
  destruct (run_new (Imperative.ListObj (split s)) h) as (text & Hnew & Hfresh).
  destruct (run_get_ngrams 3 text (split s) (<[text := Imperative.ListObj (split s)]> h))
    as (l & Hrun & Hfresh'); [by rewrite lookup_insert_eq|].
  exists l. eexists. split; [|split].
  - unfold Imperative.str_split. erewrite run_bind by done. done.
  - etrans; [by apply insert_subseteq | by apply insert_subseteq].
  - by rewrite lookup_insert_eq.
Qed.

Lemma run_block_trigrams_loop fuel tri_c p idx items (X : gset ngram) h :
  h !! p = Some (Imperative.ListObj items) →
  h !! tri_c = Some (Imperative.SetObj X) →
  (length items - idx < fuel)%nat →
  ∃ h', Imperative.block_trigrams_loop fuel tri_c p idx h =
          Some (block_trigrams_loop X (drop idx items), h') ∧ h ⊆ h'.
Proof.
  revert idx h. induction fuel as [|fuel IH]; intros idx h Hp Hc Hfuel; [lia|].
  simpl. erewrite run_bind by (by apply run_get_list).
  destruct (items !! idx) as [s|] eqn:Hidx.
  - rewrite (drop_S _ _ _ Hidx). simpl.
    destruct (run_trigrams s h) as (tri_s & h1 & Hrun & Hsub1 & Hs).
    rewrite (run_bind _ _ _ _ _ Hrun).
    pose proof (lookup_weaken _ _ _ _ Hc Hsub1) as Hc1.
    destruct (run_new (Imperative.SetObj (X ∩ _get_ngrams 3 (split s))) h1)
      as (common & Hnew & Hfresh).
    pose proof (insert_subseteq h1 common
                  (Imperative.SetObj (X ∩ _get_ngrams 3 (split s))) Hfresh) as Hsub2.
    erewrite run_bind; last first.
    { unfold Imperative.intersection. erewrite run_bind by (by apply run_get_set).
      erewrite run_bind by (by apply run_get_set). done. }
    erewrite run_bind; last first.
    { unfold Imperative.set_len. erewrite run_bind; [done|].
      apply run_get_set. by rewrite lookup_insert_eq. }
    destruct (bool_decide _).
    + eexists. split; [done|]. by etrans.
    + assert (h ⊆ <[common := Imperative.SetObj (X ∩ _get_ngrams 3 (split s))]> h1)
        as Hsub by (by etrans).
      destruct (IH (S idx) _ (lookup_weaken _ _ _ _ Hp Hsub)
                  (lookup_weaken _ _ _ _ Hc Hsub)) as (h' & -> & Hsub').
      { apply lookup_lt_Some in Hidx. lia. }
      exists h'. split; [done|]. by etrans.
  - rewrite drop_ge by (by apply lookup_ge_None). by exists h.
Qed.

Lemma run_block_trigrams fuel c p items h :
  h !! p = Some (Imperative.ListObj items) →
  (length items < fuel)%nat →
  ∃ h', Imperative.block_trigrams fuel c p h = Some (block_trigrams c items, h') ∧
        h ⊆ h'.
Proof.
  intros Hp Hfuel. unfold Imperative.block_trigrams.
  destruct (run_trigrams c h) as (tri_c & h1 & Hrun & Hsub1 & Hc).
  rewrite (run_bind _ _ _ _ _ Hrun).
  destruct (run_block_trigrams_loop fuel tri_c p 0 items _ h1
              (lookup_weaken _ _ _ _ Hp Hsub1) Hc) as (h' & -> & Hsub'); [lia|].
  exists h'. split; [done|]. by etrans.
Qed.

(** C6.  [block_trigrams] is a pure, deterministic function of its two
    arguments.  Run on any store where [p] refers to a list with the items
    [items], the call returns, and what it returns is a function of [c] and
    [items] alone: two calls with equal arguments give the same boolean, on
    whatever stores they run, also when the second runs on the store the
    first one left.  The call changes no object that existed before it, the
    list [p] included: all its writes go to objects it created itself. *)
Theorem block_trigrams_pure c items p1 p2 (h1 h2 : Imperative.store) fuel1 fuel2 :
  h1 !! p1 = Some (Imperative.ListObj items) →
  h2 !! p2 = Some (Imperative.ListObj items) →
  (length items < fuel1)%nat →
  (length items < fuel2)%nat →
  ∃ b h1' h2' h1'',
    b = block_trigrams c items ∧
    Imperative.block_trigrams fuel1 c p1 h1 = Some (b, h1') ∧ h1 ⊆ h1' ∧
    Imperative.block_trigrams fuel2 c p2 h2 = Some (b, h2') ∧ h2 ⊆ h2' ∧
    Imperative.block_trigrams fuel1 c p1 h1' = Some (b, h1'') ∧ h1' ⊆ h1''.
Proof.
  intros Hp1 Hp2 Hfuel1 Hfuel2.
  destruct (run_block_trigrams fuel1 c p1 items h1 Hp1 Hfuel1) as (h1' & Hrun1 & Hsub1).
  destruct (run_block_trigrams fuel2 c p2 items h2 Hp2 Hfuel2) as (h2' & Hrun2 & Hsub2).
  destruct (run_block_trigrams fuel1 c p1 items h1'
              (lookup_weaken _ _ _ _ Hp1 Hsub1) Hfuel1) as (h1'' & Hrun3 & Hsub3).
  by exists (block_trigrams c items), h1', h2', h1''.
Qed.

End store.

Lemma block_trigrams_pure_witness :
  ∃ b h1' h2' h1'',
    b = block_trigrams (of_string "a b c d") [of_string "x y"; of_string "b c d"] ∧
    Imperative.block_trigrams 3 (of_string "a b c d") 1%positive
      {[ 1%positive := Imperative.ListObj [of_string "x y"; of_string "b c d"] ]}
      = Some (b, h1') ∧
    {[ 1%positive := Imperative.ListObj [of_string "x y"; of_string "b c d"] ]} ⊆ h1' ∧
    Imperative.block_trigrams 5 (of_string "a b c d") 2%positive
      {[ 2%positive := Imperative.ListObj [of_string "x y"; of_string "b c d"] ]}
      = Some (b, h2') ∧
    {[ 2%positive := Imperative.ListObj [of_string "x y"; of_string "b c d"] ]} ⊆ h2' ∧
    Imperative.block_trigrams 3 (of_string "a b c d") 1%positive h1' = Some (b, h1'') ∧
    h1' ⊆ h1''.
Proof.
  apply (block_trigrams_pure (of_string "a b c d")
           [of_string "x y"; of_string "b c d"] 1%positive 2%positive
           {[ 1%positive := Imperative.ListObj [of_string "x y"; of_string "b c d"] ]}
           {[ 2%positive := Imperative.ListObj [of_string "x y"; of_string "b c d"] ]}
           3%nat 5%nat).
  - reflexivity.
  - reflexivity.
  - simpl. lia.
  - simpl. lia.
Defined.

(** * Further properties of the code *)

(** ** [str.split()] *)

Section splitting.

Implicit Types (s cur w : str) (ch : char).

Lemma split_from_nil cur :
  split_from cur [] = match cur with [] => [] | _ => [cur] end.
Proof. done. Qed.

Lemma split_from_space cur ch s :
  isspace ch = true →
  split_from cur (ch :: s) = split_from cur [] ++ split s.
Proof. intros Hch. simpl. rewrite Hch. by destruct cur. Qed.

Lemma split_from_word cur w s :
  Forall (λ ch, isspace ch = false) w →
  split_from cur (w ++ s) = split_from (cur ++ w) s.
Proof.
  intros Hw. revert cur. induction Hw as [|ch w Hch _ IH]; intros cur; simpl.
  - by rewrite app_nil_r.
  - rewrite Hch, IH. by rewrite <- app_assoc.
Qed.

Lemma split_from_app_space cur s1 ch s2 :
  isspace ch = true →
  split_from cur (s1 ++ ch :: s2) = split_from cur s1 ++ split s2.
Proof.
  intros Hch. revert cur. induction s1 as [|x s1 IH]; intros cur.
  - by apply split_from_space.
  - simpl. destruct (isspace x); [|by apply IH].
    destruct cur; [by apply IH | by rewrite IH].
Qed.

Lemma split_from_tokens cur s :
  Forall (λ ch, isspace ch = false) cur →
  Forall is_token (split_from cur s).
Proof.
  revert cur. induction s as [|x s IH]; intros cur Hcur; simpl.
  - destruct cur; [apply Forall_nil_2|].
    apply Forall_cons_2; [by split | apply Forall_nil_2].
  - destruct (isspace x) eqn:Hx.
    + destruct cur; [by apply IH|].
      apply Forall_cons_2; [by split | by apply IH].
    + apply IH. apply Forall_app. split; [done|].
      apply Forall_cons_2; [done | apply Forall_nil_2].
Qed.

Lemma split_from_concat cur (s : list char) :
  mjoin (split_from cur s) = cur ++ filter (λ ch, isspace ch = false) s.
Proof.
  revert cur. induction s as [|x s IH]; intros cur.
  - simpl. destruct cur; simpl; [done | by rewrite !app_nil_r].
  - rewrite filter_cons. simpl. destruct (isspace x) eqn:Hx.
    + rewrite decide_False by done.
      destruct cur; simpl; by rewrite IH.
    + rewrite decide_True by done. rewrite IH. by rewrite <- app_assoc.
Qed.

Lemma split_token w : is_token w → split w = [w].
Proof.
  intros [Hne Hw]. unfold split.
  rewrite <- (app_nil_r w) at 1. rewrite split_from_word by done.
  simpl. by destruct w.
Qed.

Lemma split_token_space w ch s :
  is_token w → isspace ch = true → split (w ++ ch :: s) = w :: split s.
Proof.
  intros Hw Hch. unfold split. rewrite split_from_app_space by done.
  fold (split w). by rewrite split_token.
Qed.

Lemma split_spaces sep s :
  Forall (λ ch, isspace ch = true) sep → split (sep ++ s) = split s.
Proof.
  induction 1 as [|ch sep Hch _ IH]; [done|].
  unfold split in *. simpl. by rewrite Hch.
Qed.

(** X1.  Every token [str.split()] returns is non-empty and free of
    whitespace. *)
Theorem split_tokens_wellformed s : Forall is_token (split s).
Proof. by apply split_from_tokens. Qed.

(** X2.  Splitting drops whitespace and nothing else: the tokens joined
    without separator are the non-whitespace characters of the string, in
    order. *)
Theorem split_keeps_nonspace (s : list char) :
  mjoin (split s) = filter (λ ch, isspace ch = false) s.
Proof. unfold split. by rewrite split_from_concat. Qed.

(** A whitespace character is a token boundary: the tokens of
    [s1 ++ ch :: s2] are those of [s1] followed by those of [s2]. *)
Theorem split_at_space s1 ch s2 :
  isspace ch = true → split (s1 ++ ch :: s2) = split s1 ++ split s2.
Proof. intros Hch. by apply split_from_app_space. Qed.

Lemma split_at_space_witness :
  split (of_string "ab" ++ 32%N :: of_string "cd e") =
  split (of_string "ab") ++ split (of_string "cd e").
Proof. apply (split_at_space (of_string "ab") 32%N (of_string "cd e")). reflexivity. Defined.

Lemma split_join_tokens sep tokens :
  sep ≠ [] → Forall (λ ch, isspace ch = true) sep → Forall is_token tokens →
  split (join sep tokens) = tokens.
Proof.
  intros Hne Hsep Htok. induction Htok as [|t tokens Ht Htok IH]; [done|].
  destruct tokens as [|t' tokens]; [by apply split_token|].
  change (join sep (t :: t' :: tokens)) with (t ++ sep ++ join sep (t' :: tokens)).
  destruct sep as [|ch sep]; [done|]. apply Forall_cons in Hsep as [Hch Hsep].
  simpl app at 2. rewrite split_token_space by done.
  f_equal. rewrite split_spaces by done.
  apply IH.
Qed.

(** X3.  Round trip: tokens joined by a non-empty separator made of
    whitespace split back into the same tokens. *)
Theorem split_join sep tokens :
  sep ≠ [] → Forall (λ ch, isspace ch = true) sep → Forall is_token tokens →
  split (join sep tokens) = tokens.
Proof. apply split_join_tokens. Qed.

Lemma split_join_witness :
  split (join (of_string " ") [of_string "the"; of_string "cat"; of_string "sat"]) =
  [of_string "the"; of_string "cat"; of_string "sat"].
Proof.
  apply (split_join (of_string " ") [of_string "the"; of_string "cat"; of_string "sat"]).
  - discriminate.
  - by repeat apply Forall_cons_2; try apply Forall_nil_2.
  - repeat apply Forall_cons_2; try apply Forall_nil_2;
      (split; [discriminate|]); by repeat apply Forall_cons_2; try apply Forall_nil_2.
Defined.

(** [str.split()] returns no token exactly when the string is empty or
    all whitespace. *)
Theorem split_nil_iff (s : list char) :
  split s = [] ↔ Forall (λ ch, isspace ch = true) s.
Proof.
  split.
  - intros Hs. pose proof (split_from_concat [] s) as Hcat.
    fold (split s) in Hcat. rewrite Hs in Hcat. simpl in Hcat.
    apply Forall_forall. intros ch Hch.
    destruct (isspace ch) eqn:Hsp; [done|].
    assert (ch ∈ filter (λ ch, isspace ch = false) s) as Hin
      by (by apply list_elem_of_filter).
    rewrite <- Hcat in Hin. by apply elem_of_nil in Hin.
  - intros Hs. rewrite <- (app_nil_r s). by rewrite split_spaces.
Qed.

End splitting.

(** ** N-gram sets *)

Section more_ngrams.

Implicit Types (text pre post : list str) (t : ngram) (n i : Z).

Lemma size_foldl_add (f : Z → ngram) (l : list Z) (acc : gset ngram) :
  (size (foldl (λ acc i, acc ∪ {[ f i ]}) acc l) ≤ size acc + length l)%nat.
Proof.
  revert acc. induction l as [|i l IH]; intros acc; simpl; [lia|].
  etrans; [apply IH|].
  assert (size (acc ∪ {[ f i ]}) ≤ size acc + 1)%nat; [|lia].
  rewrite size_union_alt.
  assert (size (({[ f i ]} : gset ngram) ∖ acc) ≤ size ({[ f i ]} : gset ngram))%nat
    as Hle by (apply subseteq_size; intros t [? _]%elem_of_difference; done).
  rewrite size_singleton in Hle. lia.
Qed.

Lemma contiguous_run_context (k : nat) t text pre post :
  contiguous_run k t text → contiguous_run k t (pre ++ text ++ post).
Proof.
  intros (Hlen & a & b & ->). split; [done|].
  exists (pre ++ a), (b ++ post). by rewrite <- !app_assoc.
Qed.

(** X4.  [_get_ngrams(n, text)] is the empty set exactly when the text has
    fewer than [n] tokens; for any [n] up to the length of the text, zero
    and negative [n] included, it has a member. *)
Theorem get_ngrams_empty_iff n text :
  _get_ngrams n text = ∅ ↔ len text < n.
Proof.
  split; [|apply get_ngrams_short].
  intros Hemp. destruct (Z.lt_ge_cases (len text) n) as [|Hle]; [done|].
  assert (slice text 0 (0 + n) ∈ _get_ngrams n text) as Hin.
  { apply elem_of_get_ngrams. exists 0. split; [lia | done]. }
  rewrite Hemp in Hin. by apply not_elem_of_empty in Hin.
Qed.

(** X5.  For [n >= 0] the members of [_get_ngrams(n, text)] are exactly the
    runs of [n] consecutive tokens of [text]: each has [n] tokens and stands
    in [text] between some prefix and some suffix. *)
Theorem get_ngrams_members n text t :
  0 ≤ n →
  t ∈ _get_ngrams n text ↔
  length t = Z.to_nat n ∧ ∃ pre post, text = pre ++ t ++ post.
Proof. intros Hn. by apply get_ngrams_contiguous. Qed.

Lemma get_ngrams_members_witness :
  split (of_string "b c") ∈ _get_ngrams 2 (split (of_string "a b c d")) ↔
  length (split (of_string "b c")) = Z.to_nat 2 ∧
  ∃ pre post, split (of_string "a b c d") = pre ++ split (of_string "b c") ++ post.
Proof.
  apply (get_ngrams_members 2 (split (of_string "a b c d")) (split (of_string "b c"))).
  lia.
Defined.

(** X6.  With [n = 0] the result is not empty: it is the set holding the
    empty tuple, whatever the text. *)
Theorem get_ngrams_zero text : _get_ngrams 0 text = {[ [] ]}.
Proof.
  apply set_eq. intros t. rewrite (get_ngrams_contiguous 0) by done.
  rewrite elem_of_singleton. split.
  - intros [Hlen _]. by destruct t.
  - intros ->. split; [done|]. by exists [], text.
Qed.

(** X7.  A text of [k] tokens has at most [k - n + 1] distinct n-grams
    (none when that number is negative). *)
Theorem get_ngrams_size n text :
  Z.of_nat (size (_get_ngrams n text)) ≤ Z.max 0 (len text - n + 1).
Proof.
  unfold _get_ngrams.
  pose proof (size_foldl_add (λ i, slice text i (i + n))
                (range (len text - n + 1)) ∅) as Hsz.
  rewrite size_empty in Hsz. unfold range in *. rewrite length_seqZ in Hsz. lia.
Qed.

(** X8.  Adding tokens before or after a text loses no n-gram. *)
Theorem get_ngrams_context n text pre post :
  0 ≤ n → _get_ngrams n text ⊆ _get_ngrams n (pre ++ text ++ post).
Proof.
  intros Hn t. rewrite !get_ngrams_contiguous by done.
  apply contiguous_run_context.
Qed.

Lemma get_ngrams_context_witness :
  _get_ngrams 2 (split (of_string "b c")) ⊆
  _get_ngrams 2 (split (of_string "a") ++ split (of_string "b c") ++ split (of_string "d")).
Proof.
  apply (get_ngrams_context 2 (split (of_string "b c"))
           (split (of_string "a")) (split (of_string "d"))).
  lia.
Defined.

(** X9.  [_get_word_ngrams] keeps the n-grams of every single sentence:
    for [n > 0] it returns a set that includes [_get_ngrams(n, s)] for each
    sentence [s] it was given. *)
Theorem get_word_ngrams_sentence n (sentences : list (list str)) s :
  0 < n → s ∈ sentences →
  ∃ grams, _get_word_ngrams n sentences = Return grams ∧
           _get_ngrams n s ⊆ grams.
Proof.
  intros Hn Hs. exists (_get_ngrams n (concat sentences)). split.
  - unfold _get_word_ngrams.
    rewrite !bool_decide_eq_true_2; [by rewrite sum_lists_concat | done |].
    destruct sentences; [by apply elem_of_nil in Hs | simpl; lia].
  - apply list_elem_of_split in Hs as (l1 & l2 & ->).
    rewrite concat_app. simpl.
    intros t. rewrite !get_ngrams_contiguous by lia.
    apply contiguous_run_context.
Qed.

Lemma get_word_ngrams_sentence_witness :
  ∃ grams,
    _get_word_ngrams 2 [split (of_string "a b"); split (of_string "c d e")] =
      Return grams ∧
    _get_ngrams 2 (split (of_string "c d e")) ⊆ grams.
Proof.
  apply (get_word_ngrams_sentence 2
           [split (of_string "a b"); split (of_string "c d e")]
           (split (of_string "c d e"))).
  - lia.
  - right. left.
Defined.

(** X10.  [_get_word_ngrams] fails exactly on an empty list of sentences or
    a non-positive [n], and then by [AssertionError]. *)
Theorem get_word_ngrams_raises n (sentences : list (list str)) e :
  _get_word_ngrams n sentences = Raise e ↔
  e = AssertionError ∧ (sentences = [] ∨ n ≤ 0).
Proof.
  unfold _get_word_ngrams.
  destruct (bool_decide (0 < len sentences)) eqn:Hs; simpl.
  - apply bool_decide_eq_true in Hs.
    destruct (bool_decide (0 < n)) eqn:Hn; simpl.
    + apply bool_decide_eq_true in Hn. split; [done|].
      intros [_ [-> |?]]; [simpl in Hs; lia | lia].
    + apply bool_decide_eq_false in Hn. split.
      * intros [= <-]. split; [done | right; lia].
      * by intros [-> _].
  - apply bool_decide_eq_false in Hs. split.
    + intros [= <-]. split; [done|]. left. destruct sentences; [done | simpl in Hs; lia].
    + by intros [-> _].
Qed.

End more_ngrams.

(** ** More on the blocking decision *)

Section more_blocking.

Implicit Types (c s : str) (p q : list str).

Lemma trigram_of_length t (ws : list str) : trigram_of t ws → (3 ≤ length ws)%nat.
Proof. intros (Hlen & pre & post & ->). rewrite !length_app. lia. Qed.

Lemma split_normalised s : split (join [32%N] (split s)) = split s.
Proof.
  apply split_join_tokens; [done | | apply split_from_tokens; apply Forall_nil_2].
  apply Forall_cons_2; [done | apply Forall_nil_2].
Qed.

(** X11.  Blocking against two lists of spans put together is blocking
    against one or the other. *)
Theorem block_trigrams_app c p q :
  block_trigrams c (p ++ q) = block_trigrams c p || block_trigrams c q.
Proof.
  apply eq_true_iff_eq. rewrite orb_true_iff, !block_trigrams_true. split.
  - intros (s & t & [Hs|Hs]%elem_of_app & H); [left | right]; by exists s, t.
  - intros [(s & t & Hs & H)|(s & t & Hs & H)]; exists s, t;
      (split; [|done]); apply elem_of_app; [by left | by right].
Qed.

(** X12.  Blocking between two spans is symmetric: [c] is blocked by the
    single accepted span [s] exactly when [s] is blocked by [c]. *)
Theorem block_trigrams_symmetric c s :
  block_trigrams c [s] = block_trigrams s [c].
Proof.
  apply eq_true_iff_eq. rewrite !block_trigrams_true.
  split; intros (s' & t & ->%list_elem_of_singleton & Ha & Hb);
    eexists _, t; (split; [by apply list_elem_of_singleton | done]).
Qed.

(** X13.  Accepted spans of fewer than three tokens never block anything:
    removing them from the list leaves the result unchanged. *)
Theorem block_trigrams_short_spans c p :
  block_trigrams c p =
  block_trigrams c (filter (λ s, (3 ≤ length (split s))%nat) p).
Proof.
  apply eq_true_iff_eq. rewrite !block_trigrams_true.
  split; intros (s & t & Hs & Hc & Ht); exists s, t; (split; [|done]).
  - apply list_elem_of_filter. split; [|done]. by apply (trigram_of_length t).
  - by apply list_elem_of_filter in Hs as [_ Hs].
Qed.

(** X14.  Only the tokens matter, not the whitespace between and around
    them: rewriting the candidate and every accepted span as its tokens
    joined by single spaces does not change the result. *)
Theorem block_trigrams_whitespace c p :
  block_trigrams (join [32%N] (split c)) ((λ s, join [32%N] (split s)) <$> p) =
  block_trigrams c p.
Proof.
  apply eq_true_iff_eq. rewrite !block_trigrams_true, split_normalised.
  split.
  - intros (s' & t & (s & -> & Hs)%list_elem_of_fmap & Hc & Ht).
    rewrite split_normalised in Ht. by exists s, t.
  - intros (s & t & Hs & Hc & Ht). exists (join [32%N] (split s)), t.
    rewrite split_normalised. split; [|done].
    apply list_elem_of_fmap. by exists s.
Qed.

(** X15.  A candidate of at least three tokens whose tokens occur, in order
    and side by side, among the tokens of an accepted span is blocked. *)
Theorem block_trigrams_quoted c s p (pre post : list str) :
  (3 ≤ length (split c))%nat → s ∈ p → split s = pre ++ split c ++ post →
  block_trigrams c p = true.
Proof.
  intros Hlen Hs Hsplit. apply block_trigrams_true.
  exists s, (take 3 (split c)).
  assert (trigram_of (take 3 (split c)) (split c)) as Ht.
  { split; [rewrite length_take; lia|].
    exists [], (drop 3 (split c)). by rewrite take_drop. }
  split; [done|]. split; [done|].
  rewrite Hsplit. by apply contiguous_run_context.
Qed.

Lemma block_trigrams_quoted_witness :
  block_trigrams (of_string "b c d") [of_string "a b c d e"] = true.
Proof.
  apply (block_trigrams_quoted (of_string "b c d") (of_string "a b c d e")
           [of_string "a b c d e"] [of_string "a"] [of_string "e"]).
  - vm_compute. lia.
  - left.
  - reflexivity.
Defined.

End more_blocking.

(** ** More on padding *)

Section more_padding.

Context {A : Type}.
Implicit Types (data out : list (list A)) (d o : list A) (pad_id : A) (w : Z).

(** The width in force: the one given, or the greatest length. *)
Lemma pad_unfold data pad_id width pad_on_left :
  pad data pad_id width pad_on_left =
  match (if not_width width then py_max ((λ d, len d) <$> data)
         else Return (default 0 width)) with
  | Return w => Return (padded pad_id pad_on_left w <$> data)
  | Raise e => Raise e
  end.
Proof.
  unfold pad. destruct (if not_width width then _ else _) as [w|e]; [|done].
  simpl. destruct pad_on_left; f_equal; apply list_fmap_ext;
    intros i d _; unfold padded; by rewrite list_mul_singleton.
Qed.

Lemma length_padded pad_id pad_on_left w d :
  len (padded pad_id pad_on_left w d) = Z.max w (len d).
Proof.
  unfold padded. destruct pad_on_left; rewrite length_app, length_replicate; lia.
Qed.

Lemma padded_long pad_id pad_on_left w d :
  w ≤ len d → padded pad_id pad_on_left w d = d.
Proof.
  intros Hle. unfold padded. replace (Z.to_nat (w - len d)) with 0%nat by lia.
  destruct pad_on_left; simpl; [done | by rewrite app_nil_r].
Qed.

Lemma padded_padded pad_id pad_on_left w d :
  padded pad_id pad_on_left w (padded pad_id pad_on_left w d) =
  padded pad_id pad_on_left w d.
Proof. apply padded_long. rewrite length_padded. lia. Qed.

Lemma py_max_raises (items : list Z) e :
  py_max items = Raise e ↔ e = ValueError ∧ items = [].
Proof.
  destruct items; simpl; [|by split; [|intros [_ ?]]].
  split; [by intros [= <-] | by intros [-> _]].
Qed.

(** X16.  [pad] fails in one case only: an empty [data] with no width given
    ([None] or [0]), where [max] of nothing raises [ValueError]. *)
Theorem pad_raises data pad_id width pad_on_left e :
  pad data pad_id width pad_on_left = Raise e ↔
  e = ValueError ∧ data = [] ∧ (width = None ∨ width = Some 0).
Proof.
  rewrite pad_unfold. destruct width as [w|]; simpl.
  - destruct (Z.eqb_spec w 0) as [-> |Hw].
    + destruct (py_max _) as [m|e'] eqn:Hmax.
      * split; [done|]. intros (_ & -> & _). done.
      * apply py_max_raises in Hmax as [-> Hnil]. apply fmap_nil_inv in Hnil.
        split; [intros [= <-]; by auto | by intros [-> _]].
    + split; [done|]. intros (_ & _ & [?|[= ?]]); done.
  - destruct (py_max _) as [m|e'] eqn:Hmax.
    + split; [done|]. intros (_ & -> & _). done.
    + apply py_max_raises in Hmax as [-> Hnil]. apply fmap_nil_inv in Hnil.
      split; [intros [= <-]; by auto | by intros [-> _]].
Qed.

(** X17.  Padding is idempotent: padding the output of [pad] again, with
    the same arguments, returns it unchanged. *)
Theorem pad_idempotent data pad_id width pad_on_left out :
  pad data pad_id width pad_on_left = Return out →
  pad out pad_id width pad_on_left = Return out.
Proof.
  rewrite !pad_unfold. destruct (not_width width) eqn:Hw.
  - destruct (py_max ((λ d, len d) <$> data)) as [m|e] eqn:Hmax; [|done].
    intros [= <-].
    assert (data ≠ []) as Hne by (intros ->; done).
    destruct (py_max_spec ((λ d, len d) <$> data)) as (m' & Hm' & _ & Hall);
      [by destruct data|].
    assert (m' = m) as -> by congruence.
    destruct (py_max_spec ((λ d, len d) <$> (padded pad_id pad_on_left m <$> data)))
      as (m2 & -> & Hin & _); [by destruct data|].
    apply list_elem_of_fmap in Hin as (o & -> & (d & -> & Hd)%list_elem_of_fmap).
    rewrite length_padded.
    assert (len d ≤ m) by (apply Hall, list_elem_of_fmap; by exists d).
    replace (Z.max m (len d)) with m by lia.
    f_equal. rewrite <- list_fmap_compose. apply list_fmap_ext.
    intros i x _. apply padded_padded.
  - intros [= <-]. f_equal. rewrite <- list_fmap_compose. apply list_fmap_ext.
    intros i x _. apply padded_padded.
Qed.

(** X18.  Padding on the left mirrors padding on the right: it is the same
    as reversing every element, padding on the right, and reversing every
    element of the result. *)
Theorem pad_left_mirror data pad_id width :
  pad data pad_id width true =
  match pad (reverse <$> data) pad_id width false with
  | Return out => Return (reverse <$> out)
  | Raise e => Raise e
  end.
Proof.
  rewrite !pad_unfold.
  assert ((λ d, len d) <$> (reverse <$> data) = (λ d : list A, len d) <$> data) as ->.
  { rewrite <- list_fmap_compose. apply list_fmap_ext.
    intros i d _. simpl. by rewrite length_reverse. }
  destruct (if not_width width then _ else _) as [w|e]; [|done].
  f_equal. rewrite <- !list_fmap_compose. apply list_fmap_ext.
  intros i d _. simpl. unfold padded.
  by rewrite reverse_app, reverse_involutive, reverse_replicate, length_reverse.
Qed.

(** X19.  The data can be read back from the output: each output element
    starts with its input element when padding is on the right, and ends
    with it when padding is on the left. *)
Theorem pad_recover data pad_id width pad_on_left out (i : nat) d :
  pad data pad_id width pad_on_left = Return out →
  data !! i = Some d →
  ∃ o, out !! i = Some o ∧
       (if pad_on_left then drop (length o - length d) o
        else take (length d) o) = d.
Proof.
  rewrite pad_unfold.
  destruct (if not_width width then _ else _) as [w|e]; [|done].
  intros [= <-] Hd. exists (padded pad_id pad_on_left w d).
  split; [by rewrite list_lookup_fmap, Hd|].
  unfold padded. destruct pad_on_left.
  - rewrite length_app, length_replicate.
    rewrite drop_app_length'; [done|]. rewrite length_replicate. lia.
  - by rewrite take_app_length.
Qed.

(** X20.  With a width that no element exceeds, the output is rectangular:
    every element of it has exactly that width. *)
Theorem pad_rectangular data pad_id w pad_on_left :
  w ≠ 0 → (∀ d, d ∈ data → len d ≤ w) →
  ∃ out, pad data pad_id (Some w) pad_on_left = Return out ∧
         length out = length data ∧ ∀ o, o ∈ out → len o = w.
Proof.
  intros Hw Hall. exists (padded pad_id pad_on_left w <$> data).
  split; [|split].
  - rewrite pad_unfold. simpl. by apply Z.eqb_neq in Hw as ->.
  - by rewrite length_fmap.
  - intros o (d & -> & Hd)%list_elem_of_fmap. rewrite length_padded.
    specialize (Hall d Hd). lia.
Qed.

End more_padding.

Lemma pad_idempotent_witness :
  pad [[1; 2; 2]; [1; 0; 0]] 0 None false = Return [[1; 2; 2]; [1; 0; 0]].
Proof.
  apply (pad_idempotent (A:=Z) [[1; 2; 2]; [1]] 0 None false). reflexivity.
Defined.

Lemma pad_recover_witness :
  ∃ o, [[0; 0; 7]; [1; 2; 3]] !! 0%nat = Some o ∧
       drop (length o - length [7]) o = [7].
Proof.
  apply (pad_recover (A:=Z) [[7]; [1; 2; 3]] 0 None true [[0; 0; 7]; [1; 2; 3]] 0 [7]);
    reflexivity.
Defined.

Lemma pad_rectangular_witness :
  ∃ out, pad [[1; 2]; []; [3]] 9 (Some 2) false = Return out ∧
         length out = 3%nat ∧ ∀ o, o ∈ out → len o = 2.
Proof.
  apply (pad_rectangular [[1; 2]; []; [3]] 9 2 false); [lia|].
  intros d Hd. repeat (apply elem_of_cons in Hd as [-> |Hd]; [simpl; lia|]).
  by apply elem_of_nil in Hd.
Defined.

(** ** Path extensions *)

Section paths.

Implicit Types (p : str) (ch : char).

Lemma rfind_from_spec (i : Z) ch p (found : Z) :
  (rfind_from i ch p found = found ∧ ch ∉ p) ∨
  ∃ k : nat, rfind_from i ch p found = i + Z.of_nat k ∧
             p !! k = Some ch ∧ ch ∉ drop (S k) p.
Proof.
  revert i found. induction p as [|x p IH]; intros i found; simpl.
  - left. split; [done | apply not_elem_of_nil].
  - destruct (IH (i + 1) (if (x =? ch)%N then i else found))
      as [[Hr Hnot]|(k & Hr & Hk & Hnot)].
    + destruct (N.eqb_spec x ch) as [-> |Hne].
      * right. exists 0%nat. rewrite Hr. split; [lia | done].
      * left. rewrite Hr. split; [done|]. by apply not_elem_of_cons.
    + right. exists (S k). rewrite Hr. split; [lia | done].
Qed.

Lemma rfind_spec ch p :
  (rfind ch p = -1 ∧ ch ∉ p) ∨
  ∃ k : nat, rfind ch p = Z.of_nat k ∧ p !! k = Some ch ∧ ch ∉ drop (S k) p.
Proof. apply (rfind_from_spec 0). Qed.

Lemma slice_prefix {A} (l : list A) (k : nat) :
  (k ≤ length l)%nat → slice l 0 (Z.of_nat k) = take k l.
Proof.
  intros Hk. unfold slice, clip.
  destruct (Z.ltb_spec 0 0); [lia|]. destruct (Z.ltb_spec (Z.of_nat k) 0); [lia|].
  replace (Z.min 0 (len l)) with 0 by lia.
  replace (Z.min (Z.of_nat k) (len l)) with (Z.of_nat k) by lia.
  simpl. f_equal. lia.
Qed.

Lemma slice_suffix {A} (l : list A) (k : nat) :
  (k ≤ length l)%nat → slice l (Z.of_nat k) (len l) = drop k l.
Proof.
  intros Hk. unfold slice, clip.
  destruct (Z.ltb_spec (Z.of_nat k) 0); [lia|].
  destruct (Z.ltb_spec (len l) 0); [lia|].
  rewrite Z.min_id. replace (Z.min (Z.of_nat k) (len l)) with (Z.of_nat k) by lia.
  rewrite Nat2Z.id. apply take_ge. rewrite length_drop. lia.
Qed.

(** What [splitext] returns: the path whole and no extension, or the path
    cut at its last dot, which no separator follows. *)
Lemma splitext_cases p :
  splitext p = (p, []) ∨
  ∃ k : nat, splitext p = (take k p, drop k p) ∧
             p !! k = Some extsep ∧ (extsep ∉ drop (S k) p) ∧ (sep ∉ drop k p).
Proof.
  unfold splitext. destruct (_ && _) eqn:Hc; [|by left].
  apply andb_true_iff in Hc as [Hlt _]. apply Z.ltb_lt in Hlt.
  destruct (rfind_spec extsep p) as [[Hd _]|(k & Hd & Hk & Hnot)].
  { destruct (rfind_spec sep p) as [[Hs _]|(j & Hs & _)]; lia. }
  right. exists k. rewrite Hd.
  pose proof (lookup_lt_Some _ _ _ Hk) as Hklen.
  rewrite slice_prefix, slice_suffix by lia.
  split; [done|]. split; [done|]. split; [done|].
  destruct (rfind_spec sep p) as [[_ Hs]|(j & Hs & _ & Hnots)].
  - intros Hin. apply Hs. by apply (subseteq_drop k).
  - assert (j < k)%nat as Hjk by lia.
    replace k with (S j + (k - S j))%nat by lia. rewrite <- drop_drop.
    intros Hin. apply Hnots. by apply (subseteq_drop (k - S j)).
Qed.

Lemma splitext_app p : (splitext p).1 ++ (splitext p).2 = p.
Proof.
  destruct (splitext_cases p) as [-> |(k & -> & _)]; simpl.
  - by rewrite app_nil_r.
  - apply take_drop.
Qed.

(** X21.  [os.path.splitext] cuts the path in two without losing anything:
    root and extension put together are the path. *)
Theorem splitext_concat p : (splitext p).1 ++ (splitext p).2 = p.
Proof. apply splitext_app. Qed.

(** The extension is empty, or it is a dot followed by characters
    among which there is no dot and no path separator. *)
Theorem splitext_extension p :
  (splitext p).2 = [] ∨
  ∃ e, (splitext p).2 = extsep :: e ∧ (extsep ∉ e) ∧ (sep ∉ e).
Proof.
  destruct (splitext_cases p) as [-> |(k & -> & Hk & Hdot & Hsep)]; [by left|].
  right. simpl. exists (drop (S k) p).
  rewrite (drop_S _ _ _ Hk) in Hsep |- *.
  split; [done|]. split; [done|]. by apply not_elem_of_cons in Hsep as [_ ?].
Qed.

End paths.

(** ** More on loading JSON documents *)

Section more_load_json.

Context {value bytes : Type}.
Variable read_json_file : str → result value.
Variable gzip_read : str → result bytes.
Variable decode_utf8 : bytes → result str.
Variable json_loads : str → result value.

Local Abbreviation run :=
  (load_json value bytes read_json_file gzip_read decode_utf8 json_loads).

Implicit Types (json_file file_path : str) (documents : value).


(** X23.  When [load_json] raises, either the extension is not recognized
    (one message is logged and the exception is [UnboundLocalError]), or
    nothing is logged and the exception is the one of the first step that
    failed: opening and parsing for ".json"; reading, decoding and parsing,
    in that order, for ".gz". *)
Theorem load_json_raises json_file e :
  (run json_file).2 = Raise e →
  ((splitext json_file).2 ≠ of_string ".json" ∧
   (splitext json_file).2 ≠ of_string ".gz" ∧
   e = UnboundLocalError ∧
   (run json_file).1 = [error_message (splitext json_file).2]) ∨
  ((run json_file).1 = [] ∧
   (((splitext json_file).2 = of_string ".json" ∧
     read_json_file json_file = Raise e) ∨
    ((splitext json_file).2 = of_string ".gz" ∧
     (gzip_read json_file = Raise e ∨
      ∃ json_bytes, gzip_read json_file = Return json_bytes ∧
        (decode_utf8 json_bytes = Raise e ∨
         ∃ json_str, decode_utf8 json_bytes = Return json_str ∧
                     json_loads json_str = Raise e))))).
Proof.
  unfold load_json. destruct (splitext json_file) as [root ext]. simpl.
  destruct (bool_decide (ext = of_string ".json")) eqn:Hjson.
  - apply bool_decide_eq_true in Hjson as ->. simpl.
    destruct (read_json_file json_file) as [d|e']; [done|].
    simpl. intros [= ->]. right. split; [done|]. left. by split.
  - apply bool_decide_eq_false in Hjson.
    destruct (bool_decide (ext = of_string ".gz")) eqn:Hgz.
    + apply bool_decide_eq_true in Hgz as ->. simpl.
      intros Hrun. right. split; [done|]. right. split; [done|].
      destruct (gzip_read json_file) as [b|e1]; [|left; by injection Hrun as ->].
      right. exists b. split; [done|]. simpl in Hrun.
      destruct (decode_utf8 b) as [js|e2]; [|left; by injection Hrun as ->].
      right. exists js. split; [done|]. simpl in Hrun.
      destruct (json_loads js) as [d|e3]; [done | by injection Hrun as ->].
    + apply bool_decide_eq_false in Hgz. simpl. intros [= <-]. by left.
Qed.

(** X24.  [load_json] logs exactly when the extension is neither ".json"
    nor ".gz"; it then logs one message, which names the extension, reads
    no file and raises [UnboundLocalError]. *)
Theorem load_json_logs json_file :
  ((run json_file).1 = [] ↔
   (splitext json_file).2 = of_string ".json" ∨
   (splitext json_file).2 = of_string ".gz") ∧
  ((run json_file).1 ≠ [] →
   run json_file =
     ([error_message (splitext json_file).2], Raise UnboundLocalError)).
Proof.
  unfold load_json. destruct (splitext json_file) as [root ext]. simpl.
  destruct (bool_decide (ext = of_string ".json")) eqn:Hjson.
  { apply bool_decide_eq_true in Hjson. split; [by split; auto | done]. }
  destruct (bool_decide (ext = of_string ".gz")) eqn:Hgz.
  { apply bool_decide_eq_true in Hgz. split; [by split; auto | done]. }
  apply bool_decide_eq_false in Hjson, Hgz. simpl.
  split; [|done]. split; [done | by intros [?|?]].
Qed.

End more_load_json.


Lemma load_json_raises_witness :
  ((splitext (of_string "a.json.gz")).2 ≠ of_string ".json" ∧
   (splitext (of_string "a.json.gz")).2 ≠ of_string ".gz" ∧
   OSError = UnboundLocalError ∧
   (load_json nat unit (λ _, Return 7%nat) (λ _, Raise OSError)
      (λ _, Raise UnicodeDecodeError) (λ _, Raise ValueError)
      (of_string "a.json.gz")).1 =
     [error_message (splitext (of_string "a.json.gz")).2]) ∨
  ((load_json nat unit (λ _, Return 7%nat) (λ _, Raise OSError)
      (λ _, Raise UnicodeDecodeError) (λ _, Raise ValueError)
      (of_string "a.json.gz")).1 = [] ∧
   (((splitext (of_string "a.json.gz")).2 = of_string ".json" ∧
     (λ _ : str, Return 7%nat) (of_string "a.json.gz") = Raise OSError) ∨
    ((splitext (of_string "a.json.gz")).2 = of_string ".gz" ∧
     ((λ _ : str, @Raise unit OSError) (of_string "a.json.gz") = Raise OSError ∨
      ∃ json_bytes,
        (λ _ : str, @Raise unit OSError) (of_string "a.json.gz") = Return json_bytes ∧
        ((λ _ : unit, @Raise str UnicodeDecodeError) json_bytes = Raise OSError ∨
         ∃ json_str,
           (λ _ : unit, @Raise str UnicodeDecodeError) json_bytes = Return json_str ∧
           (λ _ : str, @Raise nat ValueError) json_str = Raise OSError))))).
Proof.
  apply (load_json_raises (λ _, Return 7%nat) (λ _, Raise OSError)
           (λ _, Raise UnicodeDecodeError) (λ _, Raise ValueError)
           (of_string "a.json.gz") OSError).
  reflexivity.
Defined.

Lemma load_json_logs_witness :
  (load_json nat unit (λ _, Return 7%nat) (λ _, Raise OSError)
     (λ _, Raise UnicodeDecodeError) (λ _, Raise ValueError)
     (of_string "notes.txt")).1 ≠ [] ∧
  load_json nat unit (λ _, Return 7%nat) (λ _, Raise OSError)
    (λ _, Raise UnicodeDecodeError) (λ _, Raise ValueError)
    (of_string "notes.txt") =
    ([error_message (splitext (of_string "notes.txt")).2], Raise UnboundLocalError).
Proof.
  assert ((load_json nat unit (λ _, Return 7%nat) (λ _, Raise OSError)
             (λ _, Raise UnicodeDecodeError) (λ _, Raise ValueError)
             (of_string "notes.txt")).1 ≠ []) as Hlog by discriminate.
  split; [done|].
  by apply (load_json_logs (λ _, Return 7%nat) (λ _, Raise OSError)
              (λ _, Raise UnicodeDecodeError) (λ _, Raise ValueError)
              (of_string "notes.txt")).
Defined.

(** ** Padding tensors *)

(** X25.  [pad_tensors] never returns.  With no width given and no tensor,
    [max] of nothing raises [ValueError]; in every other case computing
    [pad_params] reads the name [tensor], which is bound nowhere, and raises
    [NameError]. *)
Theorem pad_tensors_raises {tensor : Type} (tensor_len : tensor → Z)
    (tensors : list tensor) (pad_id : Z) (width : option Z) (pad_on_left : bool) :
  (tensors = [] ∧ not_width width = true →
   pad_tensors tensor_len tensors pad_id width pad_on_left =
     Raises (Builtin ValueError)) ∧
  (tensors ≠ [] ∨ not_width width = false →
   pad_tensors tensor_len tensors pad_id width pad_on_left =
     Raises (NameError "tensor")).
Proof.
  unfold pad_tensors. split.
  - intros [-> ->]. done.
  - intros Hcase.
    assert (∃ w, (if not_width width
                  then lift (py_max (tensor_len <$> tensors))
                  else Returns (default 0 width)) = Returns w) as [w ->].
    { destruct (not_width width); [|by eexists].
      destruct Hcase as [Hne|]; [|done].
      destruct tensors; [done | by eexists]. }
    by destruct pad_on_left.
Qed.

(** ** The checkpoint callback *)

Section callback_calls.

Variable exists_file : str → bool.
Implicit Types (self : StepCheckpointCallback) (global_step : Z) (w : list call).

Lemma traced_cases self global_step :
  (step_interval self = 0 ∧
   traced_on_batch_end exists_file self global_step [] = Raises ZeroDivisionError) ∨
  (step_interval self ≠ 0 ∧
   ((global_step ≠ 0 ∧ (step_interval self | global_step) ∧
     traced_on_batch_end exists_file self global_step [] =
       Returns
         (SaveCheckpoint (path_join (save_path self) (checkpoint_name self global_step))
          :: if exists_file (checkpoint_name self
                               (global_step - step_interval self * num_saves_to_keep self))
             then [Remove (checkpoint_name self
                             (global_step - step_interval self * num_saves_to_keep self))]
             else [])) ∨
    ((global_step = 0 ∨ ¬ (step_interval self | global_step)) ∧
     traced_on_batch_end exists_file self global_step [] = Returns []))).
Proof.
  unfold traced_on_batch_end, on_batch_end.
  destruct (Z.eqb_spec (step_interval self) 0) as [Hz|Hnz]; [by left|].
  right. split; [done|]. simpl.
  destruct (Z.eqb_spec (global_step mod step_interval self) 0) as [Hmod|Hmod];
    destruct (Z.eqb_spec global_step 0) as [Hs|Hs]; simpl.
  - right. split; [by left | done].
  - left. split; [done|]. split; [by apply Z.mod_divide|].
    by destruct (exists_file _).
  - right. split; [by left | done].
  - right. split; [|done]. right. by rewrite <- Z.mod_divide.
Qed.



End callback_calls.

(** ** Checkpoints kept over a training run *)

Lemma of_string_inj (a b : string) : of_string a = of_string b → a = b.
Proof.
  unfold of_string. intros Hab.
  rewrite <- (string_of_list_ascii_of_string a), <- (string_of_list_ascii_of_string b).
  f_equal. revert Hab. generalize (list_ascii_of_string a) (list_ascii_of_string b).
  intros la. induction la as [|x la IH]; intros [|y lb]; simpl; try done.
  intros [= Hxy Hrest]. f_equal; [|by apply IH].
  by rewrite <- (ascii_N_embedding x), <- (ascii_N_embedding y), Hxy.
Qed.

Lemma to_int_nonnil (a : Z) :
  Z.to_int a ≠ Decimal.Pos Decimal.Nil ∧ Z.to_int a ≠ Decimal.Neg Decimal.Nil.
Proof.
  destruct a as [|q|q]; simpl; split; try done;
    intros [= Hnil]; by apply DecimalPos.Unsigned.to_uint_nonnil in Hnil.
Qed.

Lemma str_of_int_inj (a b : Z) : str_of_int a = str_of_int b → a = b.
Proof.
  unfold str_of_int. intros Hab%of_string_inj.
  assert (Some (Z.to_int a) = Some (Z.to_int b)) as [= Hint].
  { rewrite <- (DecimalString.NilZero.isi (Z.to_int a)) by apply to_int_nonnil.
    rewrite <- (DecimalString.NilZero.isi (Z.to_int b)) by apply to_int_nonnil.
    by rewrite Hab. }
  by rewrite <- (DecimalZ.of_to a), <- (DecimalZ.of_to b), Hint.
Qed.

Lemma checkpoint_name_inj self (a b : Z) :
  checkpoint_name self a = checkpoint_name self b → a = b.
Proof.
  unfold checkpoint_name. intros Hab.
  apply app_inv_head in Hab. apply app_inv_head in Hab.
  apply app_inv_tail in Hab. by apply str_of_int_inj.
Qed.

Lemma path_join_nil (b : str) : path_join [] b = b.
Proof. unfold path_join. by destruct (bool_decide _). Qed.

Section checkpoints_kept.

Context {file : Type} `{Countable file}.
Variable resolve : str → file.
Variable self : StepCheckpointCallback.

Local Abbreviation interval := (step_interval self).
Local Abbreviation keep := (num_saves_to_keep self).
Local Abbreviation checkpoint step := (resolve (checkpoint_name self step)).

Local Abbreviation recent := (recent_checkpoint resolve self).

Lemma on_batches_snoc {world} save isfile remove (steps : list Z) (s : Z) (w : world) :
  on_batches save isfile remove self (steps ++ [s]) w =
  w' ← on_batches save isfile remove self steps w;
  on_batch_end save isfile remove self s w'.
Proof.
  revert w. induction steps as [|x steps IH]; intros w; simpl.
  - by destruct (on_batch_end _ _ _ _ _ _).
  - destruct (on_batch_end save isfile remove self x w); simpl; [apply IH | done].
Qed.

Hypothesis interval_pos : 0 < interval.
Hypothesis keep_nonneg : 0 ≤ keep.
Hypothesis resolve_join : ∀ step,
  resolve (path_join (save_path self) (checkpoint_name self step)) = checkpoint step.
Hypothesis resolve_inj : ∀ a b, checkpoint a = checkpoint b → a = b.

Lemma recent_step_idle (N : Z) f :
  0 ≤ N → (N + 1) mod interval ≠ 0 → recent (N + 1) f ↔ recent N f.
Proof.
  intros HN Hmod.
  assert (∀ m, N + 1 ≠ m * interval) as Hnot.
  { intros m Hm. apply Hmod. rewrite Hm. apply Z_mod_mult. }
  split; intros (step & [m ->] & Hrange & Hlow & ->); exists (m * interval);
    (split; [by exists m|]).
  - specialize (Hnot m). split; [lia|]. split; [lia | done].
  - specialize (Hnot (m + keep)). split; [lia|]. split; [lia | done].
Qed.

Lemma recent_step_save (N : Z) f :
  0 ≤ N → (N + 1) mod interval = 0 →
  recent (N + 1) f ↔
  (recent N f ∨ f = checkpoint (N + 1)) ∧
  f ≠ checkpoint (N + 1 - interval * keep).
Proof.
  intros HN Hmod.
  assert ((interval | N + 1)) as Hdiv by (apply Z.mod_divide; lia).
  split.
  - intros (step & Hstep & Hrange & Hlow & ->). split.
    + destruct (decide (step = N + 1)) as [-> |Hne]; [by right|].
      left. exists step. split; [done|]. split; [lia|]. split; [lia | done].
    + intros Heq%resolve_inj. lia.
  - intros [[(step & Hstep & Hrange & Hlow & ->)| ->] Hne].
    + exists step. split; [done|]. split; [lia|]. split; [|done].
      assert (step ≠ N + 1 - interval * keep) by (intros ->; done). lia.
    + exists (N + 1). split; [done|]. split; [lia|]. split; [|done].
      assert (interval * keep ≠ 0); [|nia].
      intros Hz. apply Hne. f_equal. f_equal. lia.
Qed.

Lemma files_on_batches_recent (files0 : gset file) (N : nat) :
  (∀ step, checkpoint step ∉ files0) →
  ∃ files : gset file,
    files_on_batches resolve self (seqZ 1 (Z.of_nat N)) files0 = Returns files ∧
    ∀ f, f ∈ files ↔ f ∈ files0 ∨ recent (Z.of_nat N) f.
Proof.
  intros Hfresh. induction N as [|N (files & Hrun & Hfiles)].
  - exists files0. split; [done|]. intros f. split; [by left|].
    intros [?|(step & _ & ? & _)]; [done | lia].
  - unfold files_on_batches in *. rewrite seqZ_S, on_batches_snoc, Hrun. simpl.
    unfold on_batch_end.
    destruct (Z.eqb_spec interval 0) as [|_]; [lia|]. simpl.
    replace (Z.of_nat (S N)) with (Z.of_nat N + 1) by lia.
    replace (1 + Z.of_nat N) with (Z.of_nat N + 1) by lia.
    destruct (Z.eqb_spec ((Z.of_nat N + 1) mod interval) 0) as [Hmod|Hmod].
    + destruct (Z.eqb_spec (Z.of_nat N + 1) 0) as [|_]; [lia|]. simpl.
      rewrite resolve_join.
      assert (∀ f, f ∈ (files ∪ {[ checkpoint (Z.of_nat N + 1) ]}) ∖
                       {[ checkpoint (Z.of_nat N + 1 - interval * keep) ]}
                   ↔ f ∈ files0 ∨ recent (Z.of_nat N + 1) f) as Hgoal.
      { intros f. rewrite elem_of_difference, elem_of_union, !elem_of_singleton.
        rewrite Hfiles, recent_step_save by lia. split.
        - intros [[[?|?]|?] ?]; [by left | right; split; [by left | done]
                                 | right; split; [by right | done]].
        - intros [Hf|[[?|?] ?]]; [|split; [left; by right | done]
                                  |split; [by right | done]].
          split; [left; by left|]. intros ->. by apply (Hfresh _ Hf). }
      destruct (bool_decide _) eqn:Hfile.
      * eexists. split; [done | apply Hgoal].
      * eexists. split; [done|]. intros f. rewrite <- Hgoal.
        apply bool_decide_eq_false in Hfile.
        rewrite elem_of_difference, elem_of_singleton. split; [|by intros [? _]].
        intros Hf. split; [done|]. by intros ->.
    + simpl. exists files. split; [done|]. intros f.
      by rewrite Hfiles, recent_step_idle by lia.
Qed.

End checkpoints_kept.

Section checkpoints_piled.

Context {file : Type} `{Countable file}.
Variable resolve : str → file.
Variable self : StepCheckpointCallback.

Local Abbreviation interval := (step_interval self).
Local Abbreviation keep := (num_saves_to_keep self).
Local Abbreviation checkpoint step := (resolve (checkpoint_name self step)).

(** With a [save_path] under which no checkpoint is the file that a bare
    checkpoint name denotes, the path probed for removal is never a file. *)
Lemma files_on_batches_all (files0 : gset file) (N : nat) :
  0 < interval →
  (∀ a b, resolve (path_join (save_path self) (checkpoint_name self a)) ≠ checkpoint b) →
  (∀ step, checkpoint step ∉ files0) →
  ∃ files : gset file,
    files_on_batches resolve self (seqZ 1 (Z.of_nat N)) files0 = Returns files ∧
    ∀ f, f ∈ files ↔
         f ∈ files0 ∨
         ∃ step, (interval | step) ∧ 0 < step ≤ Z.of_nat N ∧
                 f = resolve (path_join (save_path self) (checkpoint_name self step)).
Proof.
  intros Hi Hapart Hfresh. induction N as [|N (files & Hrun & Hfiles)].
  - exists files0. split; [done|]. intros f. split; [by left|].
    intros [?|(step & _ & ? & _)]; [done | lia].
  - unfold files_on_batches in *. rewrite seqZ_S, on_batches_snoc, Hrun. simpl.
    unfold on_batch_end.
    destruct (Z.eqb_spec interval 0) as [|_]; [lia|]. simpl.
    replace (Z.of_nat (S N)) with (Z.of_nat N + 1) by lia.
    replace (1 + Z.of_nat N) with (Z.of_nat N + 1) by lia.
    destruct (Z.eqb_spec ((Z.of_nat N + 1) mod interval) 0) as [Hmod|Hmod].
    + destruct (Z.eqb_spec (Z.of_nat N + 1) 0) as [|_]; [lia|]. simpl.
      rewrite bool_decide_eq_false_2.
      * eexists. split; [done|]. intros f.
        rewrite elem_of_union, elem_of_singleton, Hfiles. split.
        -- intros [[?|(step & ? & ? & ->)]| ->]; [by left | |].
           ++ right. exists step. split; [done|]. split; [lia | done].
           ++ right. exists (Z.of_nat N + 1).
              split; [by apply Z.mod_divide; lia|]. split; [lia | done].
        -- intros [?|(step & Hdiv & ? & ->)]; [left; by left|].
           destruct (decide (step = Z.of_nat N + 1)) as [-> |?]; [by right|].
           left. right. exists step. split; [done|]. split; [lia | done].
      * rewrite elem_of_union, elem_of_singleton, Hfiles.
        intros [[Hin|(step & _ & _ & Heq)]|Heq].
        -- by apply (Hfresh _ Hin).
        -- by apply (Hapart step (Z.of_nat N + 1 - interval * keep)).
        -- by apply (Hapart (Z.of_nat N + 1) (Z.of_nat N + 1 - interval * keep)).
    + simpl. exists files. split; [done|]. intros f. rewrite Hfiles.
      assert (∀ m, Z.of_nat N + 1 ≠ m * interval) as Hnot.
      { intros m Hm. apply Hmod. rewrite Hm. apply Z_mod_mult. }
      split; (intros [?|(step & [m ->] & ? & ->)]; [by left|]); right;
        exists (m * interval); (split; [by exists m|]); (split; [|done]).
      * lia.
      * specialize (Hnot m). lia.
Qed.

End checkpoints_piled.

(** X28.  The callback keeps the last [num_saves_to_keep] checkpoints.
    Take a positive [step_interval] and a non-negative [num_saves_to_keep],
    a file system where a checkpoint's bare name and its name under
    [save_path] are the same file and different steps give different files,
    and a start with no checkpoint file.  After the batches [1 .. N] the
    files are those of the start and the checkpoints of the multiples of
    [step_interval] among the last [step_interval * num_saves_to_keep]
    steps: every older checkpoint has been removed. *)
Theorem callback_keeps_recent {file : Type} `{Countable file}
    (resolve : str → file) (self : StepCheckpointCallback)
    (files0 : gset file) (N : nat) :
  0 < step_interval self →
  0 ≤ num_saves_to_keep self →
  (∀ step, resolve (path_join (save_path self) (checkpoint_name self step)) =
           resolve (checkpoint_name self step)) →
  (∀ a b, resolve (checkpoint_name self a) = resolve (checkpoint_name self b) → a = b) →
  (∀ step, resolve (checkpoint_name self step) ∉ files0) →
  ∃ files : gset file,
    files_on_batches resolve self (seqZ 1 (Z.of_nat N)) files0 = Returns files ∧
    ∀ f, f ∈ files ↔
         f ∈ files0 ∨
         ∃ step, (step_interval self | step) ∧ 0 < step ≤ Z.of_nat N ∧
                 Z.of_nat N - step_interval self * num_saves_to_keep self < step ∧
                 f = resolve (checkpoint_name self step).
Proof.
  intros Hi Hk Hjoin Hinj Hfresh.
  by apply (files_on_batches_recent resolve self Hi Hk Hjoin Hinj files0 N).
Qed.

Lemma callback_keeps_recent_witness :
  ∃ files : gset str,
    files_on_batches id
      {| step_interval := 2; save_name := of_string "m"; save_path := [];
         num_saves_to_keep := 2 |} (seqZ 1 (Z.of_nat 9)) ∅ = Returns files ∧
    ∀ f, f ∈ files ↔
         f ∈ (∅ : gset str) ∨
         ∃ step, (2 | step) ∧ 0 < step ≤ Z.of_nat 9 ∧ Z.of_nat 9 - 2 * 2 < step ∧
                 f = checkpoint_name
                       {| step_interval := 2; save_name := of_string "m";
                          save_path := []; num_saves_to_keep := 2 |} step.
Proof.
  apply (callback_keeps_recent id
           {| step_interval := 2; save_name := of_string "m"; save_path := [];
              num_saves_to_keep := 2 |} ∅ 9%nat).
  - simpl. lia.
  - simpl. lia.
  - intros step. simpl. by rewrite path_join_nil.
  - intros a b. apply checkpoint_name_inj.
  - intros step. apply not_elem_of_empty.
Defined.

(** X29.  Old checkpoints pile up when [save_path] leads elsewhere.  Take a
    positive [step_interval], a file system where no checkpoint saved under
    [save_path] is the file that a bare checkpoint name denotes, and a start
    with no file of a bare checkpoint name.  Then the callback never removes
    anything: after the batches [1 .. N] the checkpoints of all multiples of
    [step_interval] up to [N] are there, whatever [num_saves_to_keep]. *)
Theorem callback_never_removes {file : Type} `{Countable file}
    (resolve : str → file) (self : StepCheckpointCallback)
    (files0 : gset file) (N : nat) :
  0 < step_interval self →
  (∀ a b, resolve (path_join (save_path self) (checkpoint_name self a)) ≠
          resolve (checkpoint_name self b)) →
  (∀ step, resolve (checkpoint_name self step) ∉ files0) →
  ∃ files : gset file,
    files_on_batches resolve self (seqZ 1 (Z.of_nat N)) files0 = Returns files ∧
    ∀ f, f ∈ files ↔
         f ∈ files0 ∨
         ∃ step, (step_interval self | step) ∧ 0 < step ≤ Z.of_nat N ∧
                 f = resolve (path_join (save_path self) (checkpoint_name self step)).
Proof. apply files_on_batches_all. Qed.

Lemma callback_never_removes_witness :
  ∃ files : gset str,
    files_on_batches id
      {| step_interval := 2; save_name := of_string "m";
         save_path := of_string "ckpts"; num_saves_to_keep := 1 |}
      (seqZ 1 (Z.of_nat 7)) ∅ = Returns files ∧
    ∀ f, f ∈ files ↔
         f ∈ (∅ : gset str) ∨
         ∃ step, (2 | step) ∧ 0 < step ≤ Z.of_nat 7 ∧
                 f = path_join (of_string "ckpts")
                       (checkpoint_name
                          {| step_interval := 2; save_name := of_string "m";
                             save_path := of_string "ckpts";
                             num_saves_to_keep := 1 |} step).
Proof.
  apply (callback_never_removes id
           {| step_interval := 2; save_name := of_string "m";
              save_path := of_string "ckpts"; num_saves_to_keep := 1 |} ∅ 7%nat).
  - simpl. lia.
  - intros a b. unfold path_join, checkpoint_name. simpl. intros [=].
  - intros step. apply not_elem_of_empty.
Defined.

(** ** [_get_ngrams] over the store *)

(** X30.  [_get_ngrams] does not touch its argument.  Run on a store where
    [text] refers to a list, it returns a reference to one new object, the
    set of n-grams of the list's items; the store it leaves has that one
    object more, and every object that existed before, the list included, is
    unchanged. *)
Theorem get_ngrams_store (n : Z) (text : Imperative.loc) (items : list str)
    (h : Imperative.store) :
  h !! text = Some (Imperative.ListObj items) →
  ∃ l h',
    Imperative._get_ngrams n text h = Some (l, h') ∧
    h !! l = None ∧
    h' !! l = Some (Imperative.SetObj (_get_ngrams n items)) ∧
    h ⊆ h' ∧
    dom h' = dom h ∪ {[ l ]}.
Proof.
  intros Htext. destruct (run_get_ngrams n text items h Htext) as (l & Hrun & Hfresh).
  exists l. eexists. split; [done|]. split; [done|]. split; [|split].
  - by rewrite lookup_insert_eq.
  - by apply insert_subseteq.
  - rewrite dom_insert_L. apply (comm_L (∪)).
Qed.

Lemma get_ngrams_store_witness :
  ∃ l h',
    Imperative._get_ngrams 2 1%positive
      {[ 1%positive := Imperative.ListObj (split (of_string "a b c")) ]} = Some (l, h') ∧
    ({[ 1%positive := Imperative.ListObj (split (of_string "a b c")) ]}
       : Imperative.store) !! l = None ∧
    h' !! l = Some (Imperative.SetObj (_get_ngrams 2 (split (of_string "a b c")))) ∧
    {[ 1%positive := Imperative.ListObj (split (of_string "a b c")) ]} ⊆ h' ∧
    dom h' =
      dom ({[ 1%positive := Imperative.ListObj (split (of_string "a b c")) ]}
             : Imperative.store) ∪ {[ l ]}.
Proof.
  apply (get_ngrams_store 2 1%positive (split (of_string "a b c"))
           {[ 1%positive := Imperative.ListObj (split (of_string "a b c")) ]}).
  reflexivity.
Defined.

Lemma pad_tensors_raises_witness :
  pad_tensors (tensor := list Z) (λ t, len t) [[1; 2]; [3]] 0 None true =
  Raises (NameError "tensor").
Proof.
  apply (pad_tensors_raises (tensor := list Z) (λ t, len t) [[1; 2]; [3]] 0 None true).
  by left.
Defined.
